(** * UD-MIS simulated annealing: the [UDMIS] class of the Rydberg-atom notebooks

    A shallow embedding of the class [UDMIS] (constructor, [find_edges],
    [energy], [energy_diff], [rand_vertex]) together with the module-level
    variables [u] and [graph] its methods read.

    Conventions of the embedding

    - The coordinates, distances and temperatures are read as exact real
      numbers ([R]).  The two energies are given twice: [energy] and
      [energy_diff] evaluate their return expressions in exact reals,
      [energy_b64] and [energy_diff_b64] in binary64, on the same integer
      counters.
    - Python/NumPy integer counters are unbounded integers ([Z]); the counters
      of [energy] are bounded by the number of vertex pairs.
    - A raised Python exception is the [Raise] case of [result].
    - Random draws are explicit arguments. *)

From Stdlib Require Import List ZArith Reals Lia Lra Bool Arith.
Import ListNotations.
From Stdlib Require Ascii.
From Stdlib Require PrimFloat.

(** ** Exceptions *)

Inductive exn : Type :=
| IndexError
| ValueError.

Inductive result (A : Type) : Type :=
| Ok (a : A)
| Raise (e : exn).

Arguments Ok {A} a.
Arguments Raise {A} e.

Definition bind {A B : Type} (m : result A) (k : A -> result B) : result B :=
  match m with
  | Ok a => k a
  | Raise e => Raise e
  end.

Notation "x <- m ;; k" := (bind m (fun x => k))
  (at level 61, m at next level, right associativity).

(** [for i in l: s = body i s], stopping at the first exception. *)
Fixpoint for_ {S : Type} (l : list nat) (body : nat -> S -> result S) (s : S)
  : result S :=
  match l with
  | [] => Ok s
  | i :: l' => s' <- body i s ;; for_ l' body s'
  end.

(** [range(a, b)] for [0 <= a]; empty when [b <= a] (in particular when
    [b] is negative, as in [range(num_vertices - 1)] at zero vertices). *)
Definition range (a b : Z) : list nat :=
  seq (Z.to_nat a) (Z.to_nat (b - a)).

(** ** Sequences and arrays *)

(** Python index normalisation: a negative index counts from the end. *)
Definition norm_index (len : nat) (k : Z) : option nat :=
  let n := Z.of_nat len in
  let k' := if (k <? 0)%Z then (k + n)%Z else k in
  if ((0 <=? k') && (k' <? n))%Z then Some (Z.to_nat k') else None.

(** [l[k]] *)
Definition getitem {A : Type} (l : list A) (k : Z) : result A :=
  match norm_index (length l) k with
  | Some i => match nth_error l i with
              | Some a => Ok a
              | None => Raise IndexError
              end
  | None => Raise IndexError
  end.

Fixpoint update {A : Type} (l : list A) (i : nat) (v : A) : list A :=
  match l, i with
  | [], _ => []
  | _ :: l', O => v :: l'
  | a :: l', S i' => a :: update l' i' v
  end.

(** [l[k] = v] *)
Definition setitem {A : Type} (l : list A) (k : Z) (v : A) : result (list A) :=
  match norm_index (length l) k with
  | Some i => Ok (update l i v)
  | None => Raise IndexError
  end.

Definition matrix : Type := list (list bool).

(** [np.zeros((r, c), dtype=bool)] *)
Definition zeros (r c : nat) : matrix := repeat (repeat false c) r.

(** [m[i, j]] *)
Definition getitem2 (m : matrix) (i j : Z) : result bool :=
  row <- getitem m i ;; getitem row j.

(** [m[i, j] = v] *)
Definition setitem2 (m : matrix) (i j : Z) (v : bool) : result matrix :=
  row <- getitem m i ;;
  row' <- setitem row j v ;;
  setitem m i row'.

(** [np.where(row)[0]]: the indices of the true entries, increasing. *)
Fixpoint where_from (k : nat) (row : list bool) : list nat :=
  match row with
  | [] => []
  | b :: row' => if b then k :: where_from (S k) row' else where_from (S k) row'
  end.

Definition where_ (row : list bool) : list nat := where_from 0 row.

(** [a[idx]] for an integer index array [idx]. *)
Fixpoint take {A : Type} (a : list A) (idx : list nat) : result (list A) :=
  match idx with
  | [] => Ok []
  | k :: idx' =>
      x <- getitem a (Z.of_nat k) ;;
      xs <- take a idx' ;;
      Ok (x :: xs)
  end.

(** The builtin [sum] over booleans, counting [True] as 1. *)
Definition sum (l : list bool) : Z :=
  fold_left (fun acc b => (acc + Z.b2z b)%Z) l 0%Z.

(** ** The solver *)

Definition point : Type := (R * R)%type.

(** The module-level variables [u] and [graph] of the notebook. *)
Record Globals : Type := {
  global_u : R;
  global_graph : list point
}.

(** The attributes of a [UDMIS] instance. *)
Record UDMIS : Type := {
  u : R;
  graph : list point;
  num_vertices : nat;
  occupations : list bool;
  edges : matrix
}.

Definition set_occupations (self : UDMIS) (occ : list bool) : UDMIS :=
  {| u := u self; graph := graph self; num_vertices := num_vertices self;
     occupations := occ; edges := edges self |}.

Definition set_edges (self : UDMIS) (e : matrix) : UDMIS :=
  {| u := u self; graph := graph self; num_vertices := num_vertices self;
     occupations := occupations self; edges := e |}.

Open Scope R_scope.

(** [np.sqrt((x_i - x_j)**2. + (y_i - y_j)**2.)] *)
Definition dij (pi pj : point) : R :=
  let '(x_i, y_i) := pi in
  let '(x_j, y_j) := pj in
  sqrt ((x_i - x_j) ^ 2 + (y_i - y_j) ^ 2).

(** Body of the inner loop of [find_edges]; the points are read from the
    module-level [graph]. *)
Definition find_edges_inner (G : Globals) (i : nat) (pi : point)
  (j : nat) (edges : matrix) : result matrix :=
  pj <- getitem (global_graph G) (Z.of_nat j) ;;
  if Rle_dec (dij pi pj) 1 then
    edges1 <- setitem2 edges (Z.of_nat i) (Z.of_nat j) true ;;
    setitem2 edges1 (Z.of_nat j) (Z.of_nat i) true
  else Ok edges.

Definition find_edges_outer (G : Globals) (n : nat) (i : nat) (edges : matrix)
  : result matrix :=
  pi <- getitem (global_graph G) (Z.of_nat i) ;;
  for_ (range (Z.of_nat i + 1) (Z.of_nat n)) (find_edges_inner G i pi) edges.

Definition find_edges (G : Globals) (self : UDMIS) : result matrix :=
  let n := num_vertices self in
  for_ (range 0 (Z.of_nat n - 1)) (find_edges_outer G n) (zeros n n).

(** [UDMIS(u, graph)].  [rand k] is the [k]-th component of the vector
    returned by [np.random.rand(num_vertices)].  [find_edges] runs before
    the attribute [edges] exists and does not read it.  The [print] of the
    vertex count is left out. *)
Definition __init__ (G : Globals) (u0 : R) (graph0 : list point)
  (rand : nat -> R) : result UDMIS :=
  let n := length graph0 in
  let self :=
    {| u := u0; graph := graph0; num_vertices := n;
       occupations :=
         map (fun k => if Rlt_dec (rand k) (1 / 2) then true else false)
             (seq 0 n);
       edges := [] |} in
  e <- find_edges G self ;;
  Ok (set_edges self e).

(** State of the two counters of [energy]. *)
Definition counters : Type := (Z * Z)%type.

Definition energy_inner (self : UDMIS) (i : nat) (j : nat) (interaction_term : Z)
  : result Z :=
  e <- getitem2 (edges self) (Z.of_nat i) (Z.of_nat j) ;;
  if e : bool then
    oi <- getitem (occupations self) (Z.of_nat i) ;;
    oj <- getitem (occupations self) (Z.of_nat j) ;;
    Ok (interaction_term + Z.b2z (oi && oj))%Z
  else Ok interaction_term.

Definition energy_outer (self : UDMIS) (i : nat) (c : counters)
  : result counters :=
  let '(interaction_term, vertex_term) := c in
  interaction_term' <-
    for_ (range (Z.of_nat i + 1) (Z.of_nat (num_vertices self)))
         (energy_inner self i) interaction_term ;;
  oi <- getitem (occupations self) (Z.of_nat i) ;;
  Ok (interaction_term', (vertex_term + Z.b2z oi)%Z).

(** [energy(self)]; the interaction strength is the module-level [u]. *)
Definition energy (G : Globals) (self : UDMIS) : result R :=
  let n := num_vertices self in
  c <- for_ (range 0 (Z.of_nat n - 1)) (energy_outer self) (0%Z, 0%Z) ;;
  let '(interaction_term, vertex_term) := c in
  last <- getitem (occupations self) (Z.of_nat n - 1) ;;
  let vertex_term := (vertex_term + Z.b2z last)%Z in
  Ok (global_u G * IZR interaction_term - IZR vertex_term).

(** [energy_diff(self, i)]; the interaction strength is the module-level
    [u]. *)
Definition energy_diff (G : Globals) (self : UDMIS) (i : Z) : result R :=
  row <- getitem (edges self) i ;;
  let connections := where_ row in
  occ <- take (occupations self) connections ;;
  let num_adjacent_occupied := sum occ in
  oi <- getitem (occupations self) i ;;
  if oi : bool then
    let vertex_term_change := 1 in
    let interaction_term_change := - global_u G * IZR num_adjacent_occupied in
    Ok (interaction_term_change + vertex_term_change)
  else
    let vertex_term_change := -1 in
    let interaction_term_change := global_u G * IZR num_adjacent_occupied in
    Ok (interaction_term_change + vertex_term_change).

(** [rand_vertex(self)]: [np.random.randint(num_vertices)].  [draw] is the
    raw output of the generator, brought into [0, num_vertices);
    [randint(0)] raises. *)
Definition rand_vertex (self : UDMIS) (draw : nat) : result nat :=
  if (num_vertices self =? 0)%nat then Raise ValueError
  else Ok (draw mod num_vertices self)%nat.

(** The flip of one occupation, [occupations[i] = not occupations[i]]: the
    state change of an accepted move, and the one the energy-consistency
    property speaks of. *)
Definition toggle (self : UDMIS) (i : Z) : result UDMIS :=
  oi <- getitem (occupations self) i ;;
  occ <- setitem (occupations self) i (negb oi) ;;
  Ok (set_occupations self occ).

(** ** The binary64 values of the two energies

    The return statements of [energy] and [energy_diff] in binary64
    arithmetic, each operation rounding to nearest.  The loops are those of
    [energy] and [energy_diff] above; the module-level [u] is a binary64
    number. *)

Section Binary64.

Import PrimFloat.

(** The conversion of an integer counter to binary64 that the product
    [u*interaction_term] and the difference [... - vertex_term] carry out.
    Doubling and adding one are exact below [2^53], so this is the exact
    value of every counter below [2^53]; the counters of an instance are
    bounded by its number of vertex pairs. *)
Fixpoint b64_of_positive (p : positive) : float :=
  match p with
  | xH => 1%float
  | xO p' => (2 * b64_of_positive p')%float
  | xI p' => (2 * b64_of_positive p' + 1)%float
  end.

Definition b64_of_Z (z : Z) : float :=
  match z with
  | Z0 => 0%float
  | Zpos p => b64_of_positive p
  | Zneg p => (- b64_of_positive p)%float
  end.

(** The two counters of [energy] at its return statement. *)
Definition energy_terms (self : UDMIS) : result counters :=
  let n := num_vertices self in
  c <- for_ (range 0 (Z.of_nat n - 1)) (energy_outer self) (0%Z, 0%Z) ;;
  let '(interaction_term, vertex_term) := c in
  last <- getitem (occupations self) (Z.of_nat n - 1) ;;
  let vertex_term := (vertex_term + Z.b2z last)%Z in
  Ok (interaction_term, vertex_term).

(** [energy(self)] in binary64: [u*interaction_term - vertex_term]. *)
Definition energy_b64 (u : float) (self : UDMIS) : result float :=
  let n := num_vertices self in
  c <- for_ (range 0 (Z.of_nat n - 1)) (energy_outer self) (0%Z, 0%Z) ;;
  let '(interaction_term, vertex_term) := c in
  last <- getitem (occupations self) (Z.of_nat n - 1) ;;
  let vertex_term := (vertex_term + Z.b2z last)%Z in
  Ok (u * b64_of_Z interaction_term - b64_of_Z vertex_term)%float.

(** The occupation [occupations[i]] and the count [num_adjacent_occupied]
    that [energy_diff(self, i)] branches on and multiplies by. *)
Definition energy_diff_terms (self : UDMIS) (i : Z) : result (bool * Z) :=
  row <- getitem (edges self) i ;;
  let connections := where_ row in
  occ <- take (occupations self) connections ;;
  let num_adjacent_occupied := sum occ in
  oi <- getitem (occupations self) i ;;
  Ok (oi, num_adjacent_occupied).

(** [energy_diff(self, i)] in binary64: [-u*num_adjacent_occupied + 1.] for
    an occupied vertex, [u*num_adjacent_occupied + -1.] for an empty one;
    [-u*k] is [(-u)*k]. *)
Definition energy_diff_b64 (u : float) (self : UDMIS) (i : Z) : result float :=
  row <- getitem (edges self) i ;;
  let connections := where_ row in
  occ <- take (occupations self) connections ;;
  let num_adjacent_occupied := sum occ in
  oi <- getitem (occupations self) i ;;
  if oi : bool then
    let vertex_term_change := 1%float in
    let interaction_term_change := (- u * b64_of_Z num_adjacent_occupied)%float in
    Ok (interaction_term_change + vertex_term_change)%float
  else
    let vertex_term_change := (-1)%float in
    let interaction_term_change := (u * b64_of_Z num_adjacent_occupied)%float in
    Ok (interaction_term_change + vertex_term_change)%float.

End Binary64.

(** Modelled from the spec: the stepping method [mc_step] of the base class
    [AbstractUDMIS] (file [abstract_udmis.py]) is not among the sources; this
    is the spec's [MetropolisStep].  [draw] feeds [rand_vertex] and [r] is the
    uniform draw in [0, 1) compared against [exp(-dE / temperature)]. *)
Definition MetropolisStep (G : Globals) (self : UDMIS) (temperature : R)
  (draw : nat) (r : R) : result (UDMIS * R) :=
  i <- rand_vertex self draw ;;
  dE <- energy_diff G self (Z.of_nat i) ;;
  self' <- (if Rle_dec dE 0 then toggle self (Z.of_nat i)
            else if Rlt_dec r (exp (- dE / temperature))
                 then toggle self (Z.of_nat i)
                 else Ok self) ;;
  e <- energy G self' ;;
  Ok (self', e).

(** ** Reference notions the properties are stated against *)

(** Total reads, used where the index is known to be in range. *)
Definition occ_at (self : UDMIS) (i : nat) : bool :=
  nth i (occupations self) false.

Definition entry (m : matrix) (i j : nat) : bool :=
  nth j (nth i m []) false.

(** Euclidean distance in the plane. *)
Definition euclidean_distance (p q : point) : R :=
  sqrt (Rsqr (fst p - fst q) + Rsqr (snd p - snd q)).

(** The unit-disk relation on an indexed point sequence. *)
Definition adjacent (pts : list point) (i j : nat) : Prop :=
  i <> j /\
  exists p q, nth_error pts i = Some p /\ nth_error pts j = Some q /\
              euclidean_distance p q <= 1.

(** All index pairs over [n] vertices. *)
Definition all_pairs (n : nat) : list (nat * nat) :=
  list_prod (seq 0 n) (seq 0 n).

(** Number of adjacent pairs [(i, j)], [i < j], with both ends occupied. *)
Definition occupied_edges (self : UDMIS) : nat :=
  length
    (filter
       (fun p : nat * nat =>
          let (i, j) := p in
          (i <? j)%nat && entry (edges self) i j
          && occ_at self i && occ_at self j)
       (all_pairs (num_vertices self))).

(** Number of occupied vertices. *)
Definition occupied_vertices (self : UDMIS) : nat :=
  count_occ bool_dec (occupations self) true.

(** The UD-MIS Hamiltonian with interaction strength [u0]. *)
Definition hamiltonian (u0 : R) (self : UDMIS) : R :=
  u0 * INR (occupied_edges self) - INR (occupied_vertices self).

(** Shape invariant of an instance: one occupation per vertex and a square
    adjacency array. *)
Definition square (n : nat) (m : matrix) : Prop :=
  length m = n /\ forall row, In row m -> length row = n.

Definition wf (self : UDMIS) : Prop :=
  length (occupations self) = num_vertices self /\
  square (num_vertices self) (edges self).

(** Symmetric, without self-loops. *)
Definition undirected (n : nat) (m : matrix) : Prop :=
  forall a b, (a < n)%nat -> (b < n)%nat ->
    entry m a b = entry m b a /\ entry m a a = false.

(** Sum of [f] over the indices of [l]. *)
Definition zsum (l : list nat) (f : nat -> Z) : Z :=
  fold_right (fun k acc => (f k + acc)%Z) 0%Z l.

(** The notebook's twelve-point graph and interaction strength. *)
Definition notebook_graph : list point :=
  [ (1.19, 4.25); (2.71, 3.48); (1.19, 3.51); (2, 3.38); (1.12, 2.86);
    (1.70, 2.42); (2.36, 2.54); (1.52, 1.48); (2.15, 1.54); (2.14, 1.87);
    (1.72, 0.86); (2.29, 0.87) ].

Definition notebook_globals : Globals :=
  {| global_u := 1.35; global_graph := notebook_graph |}.

(** Loop invariant of [find_edges].  [visited k j a b]: the unordered pair
    [{a, b}] has been handled once the outer loop stands at row [k] and the
    inner loop at column [j]. *)
Definition visited (k j a b : nat) : Prop :=
  (Nat.min a b < k)%nat \/ (Nat.min a b = k /\ Nat.max a b < j)%nat.

Definition find_edges_inv (g : list point) (n k j : nat) (m : matrix) : Prop :=
  square n m /\
  forall a b, (a < n)%nat -> (b < n)%nat ->
    (entry m a b = true <->
     a <> b /\ dij (nth a g (0, 0)) (nth b g (0, 0)) <= 1 /\ visited k j a b).

(** What every iteration of [find_edges] keeps, whatever the points are. *)
Definition symmetric_loopless (n : nat) (m : matrix) : Prop :=
  square n m /\
  (forall a b, entry m a b = entry m b a) /\
  (forall a, entry m a a = false).

(** The quantities the loops of [energy] and [energy_diff] accumulate. *)
Definition pair_term (self : UDMIS) (a b : nat) : Z :=
  Z.b2z (entry (edges self) a b && (occ_at self a && occ_at self b)).

Definition interaction_sum (self : UDMIS) : Z :=
  let n := num_vertices self in
  zsum (seq 0 n)
    (fun a => zsum (seq 0 n)
       (fun b => if (a <? b)%nat then pair_term self a b else 0%Z)).

Definition vertex_sum (self : UDMIS) : Z :=
  zsum (seq 0 (num_vertices self)) (fun a => Z.b2z (occ_at self a)).

Definition occupied_neighbours (self : UDMIS) (i : nat) : Z :=
  zsum (seq 0 (num_vertices self))
    (fun j => Z.b2z (entry (edges self) i j && occ_at self j)).

(** The instance after the flip of vertex [i], and the sign of the change
    of that vertex's occupation number. *)
Definition toggled (self : UDMIS) (i : nat) : UDMIS :=
  set_occupations self (update (occupations self) i (negb (occ_at self i))).

Definition flip_sign (self : UDMIS) (i : nat) : Z :=
  if occ_at self i then (-1)%Z else 1%Z.

(** A fully connected triangle with interaction strength 2, used as the
    running example. *)
Definition triangle : list point := [ (0, 0); (1 / 2, 0); (0, 1 / 2) ].

Definition triangle_globals : Globals :=
  {| global_u := 2; global_graph := triangle |}.

Definition complete3 : matrix :=
  [ [false; true; true]; [true; false; true]; [true; true; false] ].

Definition triangle_solver_with (u0 : R) (occ : list bool) : UDMIS :=
  {| u := u0; graph := triangle; num_vertices := 3; occupations := occ;
     edges := complete3 |}.

Definition triangle_solver (occ : list bool) : UDMIS :=
  triangle_solver_with 2 occ.

(** Four points pairwise within distance 1, with the adjacency array and
    the instance the constructor builds on them. *)
Definition four_points : list point :=
  [ (0, 0); (1 / 2, 0); (0, 1 / 2); (1 / 2, 1 / 2) ].

Definition complete4 : matrix :=
  [ [false; true; true; true]; [true; false; true; true];
    [true; true; false; true]; [true; true; true; false] ].

Definition four_solver (occ : list bool) : UDMIS :=
  {| u := 135 / 100; graph := four_points; num_vertices := 4;
     occupations := occ; edges := complete4 |}.

(** A generator whose uniform draws are all 0. *)
Definition zero_draws : nat -> R := fun _ => 0.

(** Two points half a unit apart. *)
Definition close_pair : list point := [ (0, 0); (1 / 2, 0) ].

(** The instance the constructor builds from no points. *)
Definition empty_solver (u0 : R) : UDMIS :=
  {| u := u0; graph := []; num_vertices := 0; occupations := [];
     edges := [] |}.

(** ** Further reference notions *)

(** No occupied vertex has an occupied neighbour; every empty vertex has
    one.  Together: the occupied vertices form a maximal independent set. *)
Definition independent (self : UDMIS) : Prop :=
  forall a b, (a < num_vertices self)%nat -> (b < num_vertices self)%nat ->
    entry (edges self) a b = true ->
    occ_at self a = true -> occ_at self b = true -> False.

Definition dominating (self : UDMIS) : Prop :=
  forall a, (a < num_vertices self)%nat -> occ_at self a = false ->
    exists b, (b < num_vertices self)%nat /\
              entry (edges self) a b = true /\ occ_at self b = true.

(** The point [p] moved by the vector [v]. *)
Definition translate (v p : point) : point :=
  (fst p + fst v, snd p + snd v).

(** The sign of the change of an occupation number under a flip, as a
    real. *)
Definition flip_sign_R (self : UDMIS) (i : nat) : R :=
  if occ_at self i then -1 else 1.

(** ** The annealing run of the first notebook *)

(** [t = np.arange(N+1)] and [exp1 = T_i * ((T_f/T_i) ** (t/N))].  For a
    positive base, [x ** y] is [Rpower x y]. *)
Definition exp1 (T_i T_f : R) (N : Z) : list R :=
  map (fun t => T_i * Rpower (T_f / T_i) (INR t / IZR N)) (range 0 (N + 1)).

(** The two lists [sim] builds: the recorded occupation vectors and the
    recorded energies. *)
Definition trace : Type := (list (list bool) * list R)%type.

(** [sim(T)], on the module-level [N] and [udmis].  The stepping method
    [mc_step] of the base class is not among the sources and is a parameter:
    [mc_step t udmis temp] is the outcome of the call made at loop index
    [t], that is the instance it leaves behind and the energy it returns, or
    the exception it raises (the index stands for the state of the random
    generator at that call). *)
Definition sim_body (mc_step : nat -> UDMIS -> R -> result (UDMIS * R))
  (T : list R) (t : nat) (st : UDMIS * trace) : result (UDMIS * trace) :=
  let '(udmis, (strings, energies)) := st in
  temp <- getitem T (Z.of_nat t) ;;
  r <- mc_step t udmis temp ;;
  let '(udmis', E) := r in
  if (t mod 100 =? 0)%nat
  then Ok (udmis', (strings ++ [occupations udmis'], energies ++ [E]))
  else Ok (udmis', (strings, energies)).

Definition sim (mc_step : nat -> UDMIS -> R -> result (UDMIS * R))
  (N : Z) (udmis : UDMIS) (T : list R) : result (UDMIS * trace) :=
  for_ (range 0 (N + 1)) (sim_body mc_step T) (udmis, ([], [])).

(** The outcome of the call of [mc_step] made at loop index [t], when the
    loop starts from [udmis]. *)
Fixpoint call (mc_step : nat -> UDMIS -> R -> result (UDMIS * R))
  (T : list R) (udmis : UDMIS) (t : nat) : result (UDMIS * R) :=
  match t with
  | O => temp <- getitem T 0 ;; mc_step 0%nat udmis temp
  | S t' =>
      r <- call mc_step T udmis t' ;;
      temp <- getitem T (Z.of_nat t) ;;
      mc_step t (fst r) temp
  end.

(** [strings_exp1[int(N/100)-1]], the occupation vector the notebook
    plots; [int] rounds towards zero. *)
Definition plotted (strings : list (list bool)) (N : Z) : result (list bool) :=
  getitem strings (Z.quot N 100 - 1).

(** The spec's Metropolis step as a stepping method, with the draws of the
    call at index [t] taken from [draws] and [rs]. *)
Definition metropolis (G : Globals) (draws : nat -> nat) (rs : nat -> R)
  (t : nat) (udmis : UDMIS) (temp : R) : result (UDMIS * R) :=
  MetropolisStep G udmis temp (draws t) (rs t).

(** What holds of the state of the loop of [sim] before the iteration of
    index [t]. *)
Definition sim_inv (mc_step : nat -> UDMIS -> R -> result (UDMIS * R))
  (T : list R) (udmis : UDMIS) (t : nat) (st : UDMIS * trace) : Prop :=
  let '(u1, (strings, energies)) := st in
  (t <= length T)%nat /\
  (t = 0%nat -> u1 = udmis) /\
  (forall t', t = S t' -> exists E, call mc_step T udmis t' = Ok (u1, E)) /\
  length energies = length strings /\
  (t <= 100 * length strings < t + 100)%nat /\
  (forall k, (100 * k < t)%nat ->
     exists s E, call mc_step T udmis (100 * k) = Ok (s, E) /\
                 nth_error strings k = Some (occupations s) /\
                 nth_error energies k = Some E).

(** ** The read-out of the second notebook *)

(** A Python string, as its characters; [ord] and [chr] restricted to the
    characters up to code 255, among which the decimal digits are exactly
    ['0' .. '9']. *)
Definition str : Type := list Ascii.ascii.

Definition ord (c : Ascii.ascii) : nat := Ascii.nat_of_ascii c.

Definition chr (n : nat) : Ascii.ascii := Ascii.ascii_of_nat n.

Definition str_dec : forall a b : str, {a = b} + {a <> b} :=
  list_eq_dec Ascii.ascii_dec.

(** [max(iterable, key=key)]: the first element whose key is the largest;
    [ValueError] on an empty iterable. *)
Fixpoint max_from {A : Type} (key : A -> nat) (best : A) (l : list A) : A :=
  match l with
  | [] => best
  | x :: l' =>
      if (key best <? key x)%nat then max_from key x l'
      else max_from key best l'
  end.

Definition max {A : Type} (l : list A) (key : A -> nat) : result A :=
  match l with
  | [] => Raise ValueError
  | x :: l' => Ok (max_from key x l')
  end.

(** [samples.count(x)] *)
Definition count (samples : list str) (x : str) : nat :=
  count_occ str_dec samples x.

(** [sol = max(set(samples), key = samples.count)].  [elements] is the
    order in which the set hands out its elements, which Python leaves
    open. *)
Definition sol (elements samples : list str) : result str :=
  max elements (count samples).

(** [int(d)] for a one-character string [d]. *)
Definition is_digit (d : Ascii.ascii) : bool :=
  ((48 <=? ord d) && (ord d <=? 57))%nat.

Definition int (d : Ascii.ascii) : result Z :=
  if is_digit d then Ok (Z.of_nat (ord d - 48)) else Raise ValueError.

(** [[int(d) for d in s]] *)
Fixpoint ints (s : str) : result (list Z) :=
  match s with
  | [] => Ok []
  | d :: s' =>
      x <- int d ;;
      xs <- ints s' ;;
      Ok (x :: xs)
  end.

Inductive colour : Type :=
| black
| salmon.

(** The loop that fills [color_map] from [string]. *)
Definition color_map_body (string : list Z) (node : nat)
  (color_map : list colour) : result (list colour) :=
  x <- getitem string (Z.of_nat node) ;;
  Ok (color_map ++ [if (x =? 0)%Z then black else salmon]).

(** The read-out cell from [color_map = []] on.  The adjacency array
    [udmis.find_edges()] is built first, from the module-level [graph]; the
    graph [nx.from_numpy_matrix] makes of it is used by the drawing only.
    Then come [string = [int(d) for d in sol[::-1]]] and the loop over
    [range(udmis.num_vertices)]; the value is the final [color_map]. *)
Definition color_map (G : Globals) (sol0 : str) (udmis : UDMIS)
  : result (list colour) :=
  adjacency <- find_edges G udmis ;;
  string <- ints (rev sol0) ;;
  for_ (range 0 (Z.of_nat (num_vertices udmis))) (color_map_body string) [].

(** The colour the read-out gives a character. *)
Definition colour_of (d : Ascii.ascii) : colour :=
  if (ord d =? 48)%nat then black else salmon.

(** ** Indexing lemmas *)

Lemma norm_index_nat (len i : nat) :
  norm_index len (Z.of_nat i) = if (i <? len)%nat then Some i else None.
Proof.
  unfold norm_index.
  destruct (Z.ltb_spec (Z.of_nat i) 0); [lia|].
  destruct (Nat.ltb_spec i len).
  - replace ((0 <=? Z.of_nat i)%Z && (Z.of_nat i <? Z.of_nat len)%Z) with true.
    + now rewrite Nat2Z.id.
    + symmetry; apply andb_true_intro; split;
        [apply Z.leb_le | apply Z.ltb_lt]; lia.
  - replace (Z.of_nat i <? Z.of_nat len)%Z with false.
    + now rewrite andb_false_r.
    + symmetry; apply Z.ltb_ge; lia.
Qed.

Lemma getitem_nat {A : Type} (l : list A) (i : nat) (d : A) :
  (i < length l)%nat -> getitem l (Z.of_nat i) = Ok (nth i l d).
Proof.
  intros Hi. unfold getitem. rewrite norm_index_nat.
  apply Nat.ltb_lt in Hi as Hb. rewrite Hb.
  now rewrite (nth_error_nth' l d Hi).
Qed.

Lemma pred_index (n : nat) :
  (1 <= n)%nat -> (Z.of_nat n - 1)%Z = Z.of_nat (n - 1).
Proof. lia. Qed.

Lemma range_from (i n : nat) :
  range (Z.of_nat i + 1) (Z.of_nat n) = seq (S i) (n - S i).
Proof.
  unfold range. f_equal; lia.
Qed.

Lemma range_upto (n : nat) :
  range 0 (Z.of_nat n - 1) = seq 0 (n - 1).
Proof.
  unfold range. f_equal; lia.
Qed.

Lemma length_update {A : Type} (l : list A) (i : nat) (v : A) :
  length (update l i v) = length l.
Proof.
  revert i. induction l as [|a l IH]; intros [|i]; simpl; auto.
Qed.

Lemma nth_update {A : Type} (l : list A) (i k : nat) (v d : A) :
  (i < length l)%nat ->
  nth k (update l i v) d = if (k =? i)%nat then v else nth k l d.
Proof.
  revert i k. induction l as [|a l IH]; intros i k Hi; simpl in Hi; [lia|].
  destruct i as [|i], k as [|k]; simpl; auto.
  apply IH. lia.
Qed.

Lemma setitem_nat {A : Type} (l : list A) (i : nat) (v : A) :
  (i < length l)%nat -> setitem l (Z.of_nat i) v = Ok (update l i v).
Proof.
  intros Hi. unfold setitem. rewrite norm_index_nat.
  apply Nat.ltb_lt in Hi. now rewrite Hi.
Qed.

Lemma In_update {A : Type} (l : list A) (i : nat) (v x : A) :
  In x (update l i v) -> x = v \/ In x l.
Proof.
  revert i. induction l as [|a l IH]; intros [|i]; simpl; try tauto.
  - intros [H|H]; auto.
  - intros [H|H]; auto. destruct (IH _ H); auto.
Qed.

(** ** Loops *)

(** Total correctness for a counted loop: an invariant indexed by the next
    index to run, kept by every iteration, which also does not raise. *)
Lemma for_seq_inv {S : Type} (P : nat -> S -> Prop)
  (body : nat -> S -> result S) (a len : nat) (s : S) :
  P a s ->
  (forall k t, (a <= k < a + len)%nat -> P k t ->
               exists t', body k t = Ok t' /\ P (Datatypes.S k) t') ->
  exists s', for_ (seq a len) body s = Ok s' /\ P (a + len)%nat s'.
Proof.
  revert a s. induction len as [|len IH]; intros a s H0 Hstep; simpl.
  - exists s. rewrite Nat.add_0_r. auto.
  - destruct (Hstep a s) as (t' & Hb & Ht'); [lia | assumption |].
    rewrite Hb. simpl.
    destruct (IH (Datatypes.S a) t') as (s' & Hs' & HP); auto.
    + intros k t Hk. apply Hstep. lia.
    + exists s'. split; auto. now replace (a + Datatypes.S len)%nat
        with (Datatypes.S a + len)%nat by lia.
Qed.

(** Partial correctness: a property kept by every iteration that returns. *)
Lemma for_preserves {S : Type} (P : S -> Prop)
  (body : nat -> S -> result S) (l : list nat) (s s' : S) :
  P s ->
  (forall k t t', In k l -> P t -> body k t = Ok t' -> P t') ->
  for_ l body s = Ok s' -> P s'.
Proof.
  revert s. induction l as [|i l IH]; intros s H0 Hstep; simpl.
  - intros H; inversion H; subst; auto.
  - destruct (body i s) as [t|e] eqn:Hb; simpl; [|discriminate].
    apply IH.
    + eapply Hstep; eauto. now left.
    + intros k t0 t' Hk. apply Hstep. now right.
Qed.

(** ** Boolean arrays *)

Lemma square_zeros (n : nat) : square n (zeros n n).
Proof.
  unfold square, zeros. split.
  - apply repeat_length.
  - intros row Hin. apply repeat_spec in Hin. subst. apply repeat_length.
Qed.

Lemma nth_repeat_default {A : Type} (d : A) (n k : nat) : nth k (repeat d n) d = d.
Proof.
  revert k. induction n as [|n IH]; intros [|k]; simpl; auto.
Qed.

Lemma entry_zeros (n a b : nat) : entry (zeros n n) a b = false.
Proof.
  unfold entry, zeros.
  destruct (Nat.lt_ge_cases a n) as [Ha|Ha].
  - rewrite (nth_indep _ [] (repeat false n)) by now rewrite repeat_length.
    rewrite nth_repeat_default. apply nth_repeat_default.
  - rewrite (nth_overflow (repeat (repeat false n) n))
      by now rewrite repeat_length.
    now destruct b.
Qed.

Lemma square_row (n : nat) (m : matrix) (i : nat) :
  square n m -> (i < n)%nat -> length (nth i m []) = n.
Proof.
  intros [Hlen Hrows] Hi. apply Hrows. apply nth_In. lia.
Qed.

Lemma getitem2_nat (n : nat) (m : matrix) (i j : nat) :
  square n m -> (i < n)%nat -> (j < n)%nat ->
  getitem2 m (Z.of_nat i) (Z.of_nat j) = Ok (entry m i j).
Proof.
  intros Hsq Hi Hj. unfold getitem2.
  rewrite (getitem_nat m i []) by (destruct Hsq; lia). simpl.
  apply getitem_nat. rewrite (square_row n); auto.
Qed.

Lemma setitem2_nat (n : nat) (m : matrix) (i j : nat) (v : bool) :
  square n m -> (i < n)%nat -> (j < n)%nat ->
  exists m',
    setitem2 m (Z.of_nat i) (Z.of_nat j) v = Ok m' /\
    square n m' /\
    forall a b,
      entry m' a b = if ((a =? i) && (b =? j))%nat then v else entry m a b.
Proof.
  intros Hsq Hi Hj.
  pose proof (square_row n m i Hsq Hi) as Hrow.
  destruct Hsq as [Hlen Hrows].
  exists (update m i (update (nth i m []) j v)).
  split; [|split].
  - unfold setitem2.
    rewrite (getitem_nat m i []) by lia. simpl.
    rewrite setitem_nat by lia. simpl.
    apply setitem_nat. lia.
  - split.
    + now rewrite length_update.
    + intros row Hin. apply In_update in Hin as [->|Hin]; auto.
      now rewrite length_update.
  - intros a b. unfold entry.
    rewrite nth_update by lia.
    destruct (Nat.eqb_spec a i) as [->|Hne]; simpl; auto.
    rewrite nth_update by lia.
    now destruct (Nat.eqb_spec b j).
Qed.

(** ** The graph builder *)

Lemma dij_sym (p q : point) : dij p q = dij q p.
Proof.
  destruct p as [x y], q as [x' y']. unfold dij. f_equal. ring.
Qed.

Lemma dij_euclidean (p q : point) : dij p q = euclidean_distance p q.
Proof.
  destruct p as [x y], q as [x' y']. unfold dij, euclidean_distance, Rsqr.
  simpl. f_equal. ring.
Qed.

(** An iteration of the inner loop, on a square array and in-range indices:
    it returns, keeps the shape, and sets both [(i, j)] and [(j, i)] exactly
    when the two points are within distance 1. *)
Lemma find_edges_inner_step (G : Globals) (n i j : nat) (pi : point) (m : matrix) :
  square n m -> (i < n)%nat -> (j < n)%nat -> (j < length (global_graph G))%nat ->
  exists m',
    find_edges_inner G i pi j m = Ok m' /\
    square n m' /\
    forall a b,
      entry m' a b =
        if Rle_dec (dij pi (nth j (global_graph G) (0, 0))) 1
        then (if ((a =? j) && (b =? i))%nat then true
              else if ((a =? i) && (b =? j))%nat then true
              else entry m a b)
        else entry m a b.
Proof.
  intros Hsq Hi Hj Hg. unfold find_edges_inner.
  rewrite (getitem_nat _ j (0, 0)) by assumption. simpl.
  destruct (Rle_dec _ 1) as [Hle|Hgt].
  - destruct (setitem2_nat n m i j true Hsq Hi Hj) as (m1 & E1 & Hsq1 & Hent1).
    destruct (setitem2_nat n m1 j i true Hsq1 Hj Hi) as (m2 & E2 & Hsq2 & Hent2).
    exists m2. rewrite E1. simpl. rewrite E2.
    split; [reflexivity | split; [assumption|]].
    intros a b. rewrite Hent2, Hent1. reflexivity.
  - exists m. auto.
Qed.

Lemma find_edges_inv_inner (G : Globals) (n i j : nat) (m : matrix) :
  let g := global_graph G in
  (n <= length g)%nat -> (i < j < n)%nat ->
  find_edges_inv g n i j m ->
  exists m',
    find_edges_inner G i (nth i g (0, 0)) j m = Ok m' /\
    find_edges_inv g n i (S j) m'.
Proof.
  intros g Hg Hij [Hsq Hinv].
  assert (Hjg : (j < length (global_graph G))%nat) by (fold g; lia).
  destruct (find_edges_inner_step G n i j (nth i g (0, 0)) m
              Hsq ltac:(lia) ltac:(lia) Hjg)
    as (m' & E & Hsq' & Hent).
  exists m'. split; [assumption|]. split; [assumption|].
  intros a b Ha Hb. rewrite Hent. fold g. unfold visited.
  destruct (Rle_dec (dij (nth i g (0, 0)) (nth j g (0, 0))) 1) as [Hle|Hgt].
  - pose proof Hle as Hle'. rewrite dij_sym in Hle'.
    destruct (Nat.eqb_spec a j), (Nat.eqb_spec b i),
             (Nat.eqb_spec a i), (Nat.eqb_spec b j);
      subst; simpl; try lia;
      try (rewrite Hinv by assumption; unfold visited);
      intuition (first [assumption | lia | reflexivity]).
  - rewrite Hinv by assumption. unfold visited.
    split.
    + intros (Hab & Hd & Hv). repeat split; auto. lia.
    + intros (Hab & Hd & Hv). repeat split; auto.
      destruct Hv as [Hv|[Hmin Hmax]]; [now left|].
      destruct (Nat.eq_dec (Nat.max a b) j) as [Hmj|Hmj]; [|right; lia].
      exfalso. apply Hgt.
      destruct (Nat.le_ge_cases a b).
      * replace i with a by lia. replace j with b by lia. assumption.
      * replace i with b by lia. replace j with a by lia.
        now rewrite dij_sym.
Qed.

Lemma find_edges_inv_outer (G : Globals) (n i : nat) (m : matrix) :
  let g := global_graph G in
  (n <= length g)%nat -> (i < n - 1)%nat ->
  find_edges_inv g n i 0 m ->
  exists m',
    find_edges_outer G n i m = Ok m' /\ find_edges_inv g n (S i) 0 m'.
Proof.
  intros g Hg Hi Hinv. unfold find_edges_outer. fold g.
  rewrite (getitem_nat g i (0, 0)) by lia. simpl.
  rewrite range_from.
  destruct (for_seq_inv (fun j t => find_edges_inv g n i j t)
              (find_edges_inner G i (nth i g (0, 0))) (S i) (n - S i) m)
    as (m' & E & Hend).
  - destruct Hinv as [Hsq Hinv]. split; [assumption|].
    intros a b Ha Hb. rewrite Hinv by assumption. unfold visited.
    intuition lia.
  - intros j t Hj Ht. apply find_edges_inv_inner; auto. lia.
  - exists m'. split; [assumption|].
    replace (S i + (n - S i))%nat with n in Hend by lia.
    destruct Hend as [Hsq Hend]. split; [assumption|].
    intros a b Ha Hb. rewrite Hend by assumption. unfold visited.
    intuition lia.
Qed.

(** [find_edges] returns whenever the module-level [graph] has a point for
    every vertex (or there is at most one vertex, when no point is read), and
    the array it returns holds exactly the distinct pairs within distance 1. *)
Lemma find_edges_total (G : Globals) (self : UDMIS) :
  let g := global_graph G in
  let n := num_vertices self in
  (n <= length g \/ n <= 1)%nat ->
  exists m,
    find_edges G self = Ok m /\
    square n m /\
    forall a b, (a < n)%nat -> (b < n)%nat ->
      (entry m a b = true <->
       a <> b /\ dij (nth a g (0, 0)) (nth b g (0, 0)) <= 1).
Proof.
  intros g n Hn. unfold find_edges. fold n. rewrite range_upto.
  destruct (for_seq_inv (fun k t => find_edges_inv g n k 0 t)
              (find_edges_outer G n) 0 (n - 1) (zeros n n))
    as (m & E & Hsq & Hend).
  - split; [apply square_zeros|].
    intros a b Ha Hb. rewrite entry_zeros. unfold visited.
    split; [discriminate | intuition lia].
  - intros k t Hk Ht. apply find_edges_inv_outer; auto; unfold g in *; lia.
  - exists m. split; [assumption | split; [assumption|]].
    intros a b Ha Hb. rewrite Hend by assumption. unfold visited.
    simpl. intuition lia.
Qed.

Lemma find_edges_inner_keeps (G : Globals) (n i j : nat) (pi : point)
  (m m' : matrix) :
  (i < n)%nat -> (j < n)%nat -> i <> j ->
  symmetric_loopless n m ->
  find_edges_inner G i pi j m = Ok m' ->
  symmetric_loopless n m'.
Proof.
  intros Hi Hj Hij (Hsq & Hsym & Hirr). unfold find_edges_inner.
  destruct (getitem (global_graph G) (Z.of_nat j)) as [pj|e]; simpl;
    [|discriminate].
  destruct (Rle_dec (dij pi pj) 1) as [Hle|Hgt].
  - destruct (setitem2_nat n m i j true Hsq Hi Hj) as (m1 & E1 & Hsq1 & Hent1).
    destruct (setitem2_nat n m1 j i true Hsq1 Hj Hi) as (m2 & E2 & Hsq2 & Hent2).
    rewrite E1. simpl. rewrite E2. intros H. inversion H. subst m'.
    split; [assumption|]. split.
    + intros a b. rewrite !Hent2, !Hent1.
      destruct (Nat.eqb_spec a j), (Nat.eqb_spec b i),
               (Nat.eqb_spec a i), (Nat.eqb_spec b j);
        subst; simpl; auto; lia.
    + intros a. rewrite Hent2, Hent1.
      destruct (Nat.eqb_spec a j), (Nat.eqb_spec a i);
        subst; simpl; auto; lia.
  - intros H. inversion H. subst m'. repeat split; auto; apply Hsq.
Qed.

(** Whenever [find_edges] returns, the array is square, symmetric and has
    a false diagonal. *)
Lemma find_edges_symmetric_loopless (G : Globals) (self : UDMIS) (m : matrix) :
  find_edges G self = Ok m ->
  symmetric_loopless (num_vertices self) m.
Proof.
  unfold find_edges. set (n := num_vertices self). rewrite range_upto.
  apply for_preserves.
  - split; [apply square_zeros|].
    split; intros; now rewrite !entry_zeros.
  - intros i t t' Hi Ht. apply in_seq in Hi.
    unfold find_edges_outer.
    destruct (getitem (global_graph G) (Z.of_nat i)) as [pi|e]; simpl;
      [|discriminate].
    rewrite range_from.
    apply for_preserves; [assumption|].
    intros j t1 t1' Hj Ht1. apply in_seq in Hj.
    apply (find_edges_inner_keeps G n i j pi); auto; lia.
Qed.

Lemma symmetric_loopless_undirected (n : nat) (m : matrix) :
  symmetric_loopless n m -> undirected n m.
Proof.
  intros (_ & Hsym & Hirr) a b _ _. auto.
Qed.

(** ** Finite sums *)

Section FiniteSums.

Local Open Scope Z_scope.

Lemma zsum_cons (k : nat) (l : list nat) (f : nat -> Z) :
  zsum (k :: l) f = f k + zsum l f.
Proof. reflexivity. Qed.

Lemma zsum_app (l1 l2 : list nat) (f : nat -> Z) :
  zsum (l1 ++ l2) f = zsum l1 f + zsum l2 f.
Proof.
  induction l1 as [|k l1 IH]; simpl; [reflexivity|]. rewrite IH. ring.
Qed.

Lemma zsum_ext (l : list nat) (f g : nat -> Z) :
  (forall k, In k l -> f k = g k) -> zsum l f = zsum l g.
Proof.
  induction l as [|k l IH]; intros H; simpl; [reflexivity|].
  rewrite H by now left. rewrite IH; auto. intros; apply H; now right.
Qed.

Lemma zsum_zero (l : list nat) (f : nat -> Z) :
  (forall k, In k l -> f k = 0) -> zsum l f = 0.
Proof.
  induction l as [|k l IH]; intros H; simpl; [reflexivity|].
  rewrite H by now left. rewrite IH; auto. intros; apply H; now right.
Qed.

Lemma zsum_plus (l : list nat) (f g : nat -> Z) :
  zsum l (fun k => f k + g k) = zsum l f + zsum l g.
Proof.
  induction l as [|k l IH]; simpl; [reflexivity|]. rewrite IH. ring.
Qed.

Lemma zsum_scale (l : list nat) (c : Z) (f : nat -> Z) :
  zsum l (fun k => c * f k) = c * zsum l f.
Proof.
  induction l as [|k l IH]; simpl; [ring|]. rewrite IH. ring.
Qed.

Lemma zsum_single (a len i : nat) (v : Z) :
  (a <= i < a + len)%nat ->
  zsum (seq a len) (fun k => if (k =? i)%nat then v else 0) = v.
Proof.
  revert a. induction len as [|len IH]; intros a Hi; [lia|]. simpl.
  destruct (Nat.eqb_spec a i) as [->|Hne].
  - rewrite zsum_zero; [ring|].
    intros k Hk. apply in_seq in Hk.
    destruct (Nat.eqb_spec k i); [lia | reflexivity].
  - rewrite IH by lia. ring.
Qed.

Lemma zsum_at (n i : nat) (x : Z) (c : nat -> Z) :
  (i < n)%nat ->
  zsum (seq 0 n) (fun a => if (a =? i)%nat then x else c a) =
  x + zsum (seq 0 n) (fun a => if (a =? i)%nat then 0 else c a).
Proof.
  intros Hi.
  transitivity
    (zsum (seq 0 n)
       (fun a => (if (a =? i)%nat then x else 0)
                 + (if (a =? i)%nat then 0 else c a))).
  - apply zsum_ext. intros k _. destruct (k =? i)%nat; ring.
  - rewrite zsum_plus, zsum_single by lia. reflexivity.
Qed.

(** The guarded full row is the triangular row of the source's inner loop. *)
Lemma zsum_above (n a : nat) (f : nat -> Z) :
  zsum (seq 0 n) (fun b => if (a <? b)%nat then f b else 0) =
  zsum (seq (S a) (n - S a)) f.
Proof.
  destruct (Nat.lt_ge_cases a n) as [Ha|Ha].
  - replace n with (S a + (n - S a))%nat at 1 by lia.
    rewrite seq_app, zsum_app. simpl (0 + S a)%nat.
    rewrite zsum_zero.
    + simpl. apply zsum_ext. intros k Hk. apply in_seq in Hk.
      destruct (Nat.ltb_spec a k); [reflexivity | lia].
    + intros k Hk. apply in_seq in Hk.
      destruct (Nat.ltb_spec a k); [lia | reflexivity].
  - replace (n - S a)%nat with 0%nat by lia. simpl.
    apply zsum_zero. intros k Hk. apply in_seq in Hk.
    destruct (Nat.ltb_spec a k); [lia | reflexivity].
Qed.

Lemma zsum_filter (l : list nat) (q : nat -> bool) :
  Z.of_nat (length (filter q l)) = zsum l (fun k => Z.b2z (q k)).
Proof.
  induction l as [|k l IH]; simpl; [reflexivity|].
  destruct (q k); simpl length; rewrite <- IH; simpl Z.b2z; lia.
Qed.

Lemma zsum_seq_shift (a len : nat) (f : nat -> Z) :
  zsum (seq (S a) len) f = zsum (seq a len) (fun k => f (S k)).
Proof.
  revert a. induction len as [|len IH]; intros a; simpl; [reflexivity|].
  now rewrite IH.
Qed.

Lemma zsum_seq_last (n : nat) (f : nat -> Z) :
  (1 <= n)%nat -> zsum (seq 0 n) f = zsum (seq 0 (n - 1)) f + f (n - 1)%nat.
Proof.
  intros Hn. replace n with (S (n - 1)) at 1 by lia.
  rewrite seq_S, zsum_app. simpl. ring.
Qed.

(** A loop that adds [f k] to its accumulator computes a sum. *)
Lemma for_zsum (l : list nat) (body : nat -> Z -> result Z) (f : nat -> Z) (acc : Z) :
  (forall k t, In k l -> body k t = Ok (t + f k)) ->
  for_ l body acc = Ok (acc + zsum l f).
Proof.
  revert acc. induction l as [|k l IH]; intros acc H; simpl.
  - f_equal. ring.
  - rewrite H by now left. simpl. rewrite IH.
    + f_equal. ring.
    + intros; apply H; now right.
Qed.

Lemma for_zsum2 (l : list nat) (body : nat -> counters -> result counters)
  (f g : nat -> Z) (c : counters) :
  (forall k s t, In k l -> body k (s, t) = Ok (s + f k, t + g k)) ->
  for_ l body c = Ok (fst c + zsum l f, snd c + zsum l g).
Proof.
  revert c. induction l as [|k l IH]; intros [s t] H; simpl.
  - f_equal. f_equal; ring.
  - rewrite H by now left. simpl. rewrite IH.
    + simpl. f_equal. f_equal; ring.
    + intros; apply H; now right.
Qed.

End FiniteSums.

(** ** Index arrays and boolean sums *)

Lemma where_from_bound (s : nat) (row : list bool) (k : nat) :
  In k (where_from s row) -> (s <= k < s + length row)%nat.
Proof.
  revert s. induction row as [|b row IH]; intros s; simpl; [tauto|].
  destruct b; simpl.
  - intros [->|H]; [lia|]. apply IH in H. lia.
  - intros H. apply IH in H. lia.
Qed.

Lemma take_nat {A : Type} (a : list A) (idx : list nat) (d : A) :
  (forall k, In k idx -> (k < length a)%nat) ->
  take a idx = Ok (map (fun k => nth k a d) idx).
Proof.
  induction idx as [|k idx IH]; intros H; simpl; [reflexivity|].
  rewrite (getitem_nat a k d) by (apply H; now left). simpl.
  rewrite IH by (intros; apply H; now right). reflexivity.
Qed.

Lemma sum_shift (l : list bool) (acc : Z) :
  fold_left (fun t b => (t + Z.b2z b)%Z) l acc = (acc + sum l)%Z.
Proof.
  unfold sum. revert acc. induction l as [|b l IH]; intros acc; simpl.
  - lia.
  - rewrite IH, (IH (Z.b2z b)). lia.
Qed.

Lemma sum_cons (b : bool) (l : list bool) : sum (b :: l) = (Z.b2z b + sum l)%Z.
Proof.
  unfold sum at 1. simpl. apply sum_shift.
Qed.

Lemma sum_where (o : nat -> bool) (s : nat) (row : list bool) :
  sum (map o (where_from s row)) =
  zsum (seq s (length row)) (fun j => Z.b2z (nth (j - s) row false && o j)).
Proof.
  revert s. induction row as [|b row IH]; intros s; [reflexivity|].
  simpl length. simpl seq. rewrite zsum_cons. rewrite Nat.sub_diag.
  simpl (nth 0 _ _).
  assert (Hrest :
    zsum (seq (S s) (length row))
      (fun j => Z.b2z (nth (j - s) (b :: row) false && o j)) =
    zsum (seq (S s) (length row))
      (fun j => Z.b2z (nth (j - S s) row false && o j))).
  { apply zsum_ext. intros k Hk. apply in_seq in Hk.
    replace (k - s)%nat with (S (k - S s)) by lia. reflexivity. }
  rewrite Hrest, <- IH. simpl where_from.
  destruct b; simpl andb.
  - simpl map. rewrite sum_cons. reflexivity.
  - simpl Z.b2z. lia.
Qed.

(** ** The total energy and the energy difference

    Both are computed here on an instance of the right shape, under any
    state of the module-level variables. *)

Section WellShaped.

Variable G : Globals.
Variable self : UDMIS.
Hypothesis Hwf : wf self.

Lemma energy_inner_eq (i j : nat) (acc : Z) :
  (i < num_vertices self)%nat -> (j < num_vertices self)%nat ->
  energy_inner self i j acc = Ok (acc + pair_term self i j)%Z.
Proof.
  destruct Hwf as [Hocc Hsq]. intros Hi Hj.
  unfold energy_inner, pair_term, occ_at.
  rewrite (getitem2_nat _ _ _ _ Hsq Hi Hj). simpl.
  destruct (entry (edges self) i j); simpl.
  - rewrite (getitem_nat _ i false) by lia. simpl.
    rewrite (getitem_nat _ j false) by lia. reflexivity.
  - f_equal. lia.
Qed.

Lemma energy_outer_eq (i : nat) (s t : Z) :
  (i < num_vertices self)%nat ->
  energy_outer self i (s, t) =
  Ok ((s + zsum (seq 0 (num_vertices self))
             (fun b => if (i <? b)%nat then pair_term self i b else 0))%Z,
      (t + Z.b2z (occ_at self i))%Z).
Proof.
  intros Hi. unfold energy_outer. rewrite range_from.
  rewrite (for_zsum _ _ (pair_term self i)).
  - simpl. destruct Hwf as [Hocc _].
    rewrite (getitem_nat _ i false) by lia. simpl.
    now rewrite zsum_above.
  - intros k acc Hk. apply in_seq in Hk. apply energy_inner_eq; auto.
    lia.
Qed.

(** With at least one vertex [energy] returns, and its value is the
    module-level [u] times the interaction count minus the vertex count. *)
Lemma energy_closed :
  (1 <= num_vertices self)%nat ->
  energy G self =
  Ok (global_u G * IZR (interaction_sum self) - IZR (vertex_sum self)).
Proof.
  intros Hn. unfold energy. set (n := num_vertices self) in *.
  rewrite range_upto.
  rewrite (for_zsum2 _ _
             (fun a => zsum (seq 0 n)
                (fun b => if (a <? b)%nat then pair_term self a b else 0%Z))
             (fun a => Z.b2z (occ_at self a))).
  - simpl. rewrite pred_index by assumption.
    destruct Hwf as [Hocc _]. fold n in Hocc.
    rewrite (getitem_nat _ (n - 1) false) by lia. simpl.
    unfold interaction_sum, vertex_sum. fold n.
    rewrite (zsum_seq_last n (fun a => Z.b2z (occ_at self a))) by assumption.
    rewrite (zsum_seq_last n (fun a => zsum (seq 0 n) _)) by assumption.
    cbv beta. rewrite (zsum_above n (n - 1)).
    replace (n - S (n - 1))%nat with 0%nat by lia.
    simpl (zsum (seq _ 0) _). rewrite Z.add_0_r. reflexivity.
  - intros k s t Hk. apply in_seq in Hk. apply energy_outer_eq. fold n. lia.
Qed.

(** At a vertex index [energy_diff] returns [1 - u k] for an occupied
    vertex and [u k - 1] for an empty one, [u] the module-level variable
    and [k] the number of occupied neighbours. *)
Lemma energy_diff_closed (i : nat) :
  (i < num_vertices self)%nat ->
  energy_diff G self (Z.of_nat i) =
  Ok (if occ_at self i
      then - global_u G * IZR (occupied_neighbours self i) + 1
      else global_u G * IZR (occupied_neighbours self i) + -1).
Proof.
  destruct Hwf as [Hocc Hsq]. intros Hi. unfold energy_diff.
  pose proof (square_row _ _ i Hsq Hi) as Hrow.
  rewrite (getitem_nat _ i []) by (destruct Hsq; lia). simpl.
  rewrite (take_nat _ _ false).
  - simpl. rewrite (getitem_nat _ i false) by lia. simpl.
    unfold where_. rewrite sum_where, Hrow.
    assert (Hk :
      zsum (seq 0 (num_vertices self))
        (fun j => Z.b2z (nth (j - 0) (nth i (edges self) []) false
                         && nth j (occupations self) false)) =
      occupied_neighbours self i).
    { apply zsum_ext. intros k _. now rewrite Nat.sub_0_r. }
    rewrite Hk. unfold occ_at.
    now destruct (nth i (occupations self) false).
  - intros k Hk. apply where_from_bound in Hk. lia.
Qed.

End WellShaped.

(** With no vertex the read of [occupations[num_vertices - 1]] is the read
    of index [-1] of an empty array. *)
Lemma energy_empty (G : Globals) (self : UDMIS) :
  num_vertices self = 0%nat -> occupations self = [] ->
  energy G self = Raise IndexError.
Proof.
  intros Hn Hocc. unfold energy. rewrite Hn, Hocc. reflexivity.
Qed.

(** ** Flipping one vertex *)

Lemma toggle_nat (self : UDMIS) (i : nat) :
  (i < length (occupations self))%nat ->
  toggle self (Z.of_nat i) = Ok (toggled self i).
Proof.
  intros Hi. unfold toggle, toggled, occ_at.
  rewrite (getitem_nat _ i false) by assumption. simpl.
  rewrite setitem_nat by assumption. reflexivity.
Qed.

Lemma wf_toggled (self : UDMIS) (i : nat) : wf self -> wf (toggled self i).
Proof.
  intros [Hocc Hsq]. split; simpl; [|assumption].
  now rewrite length_update.
Qed.

Lemma occ_at_toggled (self : UDMIS) (i a : nat) :
  (i < length (occupations self))%nat ->
  occ_at (toggled self i) a =
  if (a =? i)%nat then negb (occ_at self i) else occ_at self a.
Proof.
  intros Hi. unfold occ_at, toggled. simpl. now apply nth_update.
Qed.

Ltac split_nat_tests :=
  repeat match goal with
    | |- context [(?x =? ?y)%nat] => destruct (Nat.eqb_spec x y); subst
    | |- context [(?x <? ?y)%nat] => destruct (Nat.ltb_spec x y)
    end.

Ltac split_occupations self :=
  repeat match goal with
    | |- context [occ_at self ?x] => destruct (occ_at self x)
    | |- context [entry (edges self) ?x ?y] => destruct (entry (edges self) x y)
    end.

Section Flip.

Local Open Scope Z_scope.

Lemma vertex_sum_toggled (self : UDMIS) (i : nat) :
  wf self -> (i < num_vertices self)%nat ->
  vertex_sum (toggled self i) = vertex_sum self + flip_sign self i.
Proof.
  intros [Hocc _] Hi. unfold vertex_sum. simpl num_vertices.
  set (n := num_vertices self) in *.
  transitivity
    (zsum (seq 0 n)
       (fun a => if (a =? i)%nat then Z.b2z (negb (occ_at self i))
                 else Z.b2z (occ_at self a))).
  { apply zsum_ext. intros k _. rewrite occ_at_toggled by lia.
    now destruct (k =? i)%nat. }
  transitivity
    (zsum (seq 0 n)
       (fun a => if (a =? i)%nat then Z.b2z (occ_at self i)
                 else Z.b2z (occ_at self a))
     + flip_sign self i).
  { rewrite (zsum_at n i (Z.b2z (negb (occ_at self i)))) by assumption.
    rewrite (zsum_at n i (Z.b2z (occ_at self i))) by assumption.
    unfold flip_sign. destruct (occ_at self i); simpl negb; simpl Z.b2z; lia. }
  f_equal. apply zsum_ext. intros k _.
  now destruct (Nat.eqb_spec k i) as [->|].
Qed.

(** The change of one guarded pair term under the flip of [i]. *)
Lemma pair_term_toggled (self : UDMIS) (i a b : nat) :
  (i < length (occupations self))%nat ->
  (if (a <? b)%nat then pair_term (toggled self i) a b else 0) =
  (if (a <? b)%nat then pair_term self a b else 0)
  + (if (a =? i)%nat
     then (if (i <? b)%nat
           then flip_sign self i * Z.b2z (entry (edges self) i b && occ_at self b)
           else 0)
     else if (b =? i)%nat
          then (if (a <? i)%nat
                then flip_sign self i
                     * Z.b2z (entry (edges self) a i && occ_at self a)
                else 0)
          else 0).
Proof.
  intros Hi. unfold pair_term, flip_sign.
  rewrite !occ_at_toggled by assumption.
  change (edges (toggled self i)) with (edges self).
  split_nat_tests; try lia; split_occupations self; reflexivity.
Qed.

Lemma interaction_sum_toggled (self : UDMIS) (i : nat) :
  wf self -> (i < num_vertices self)%nat ->
  undirected (num_vertices self) (edges self) ->
  interaction_sum (toggled self i) =
  interaction_sum self + flip_sign self i * occupied_neighbours self i.
Proof.
  intros [Hocc _] Hi Hund. unfold interaction_sum, occupied_neighbours.
  simpl num_vertices. set (n := num_vertices self) in *.
  set (d := flip_sign self i).
  set (c := fun a => if (a <? i)%nat
                     then d * Z.b2z (entry (edges self) a i && occ_at self a)
                     else 0).
  set (x := zsum (seq 0 n)
              (fun b => if (i <? b)%nat
                        then d * Z.b2z (entry (edges self) i b && occ_at self b)
                        else 0)).
  transitivity
    (zsum (seq 0 n)
       (fun a =>
          zsum (seq 0 n)
            (fun b => if (a <? b)%nat then pair_term self a b else 0)
          + (if (a =? i)%nat then x else c a))).
  { apply zsum_ext. intros a Ha.
    destruct (Nat.eqb_spec a i) as [->|Hne].
    - unfold x. rewrite <- zsum_plus. apply zsum_ext. intros b _.
      rewrite pair_term_toggled by lia.
      now rewrite Nat.eqb_refl.
    - rewrite <- (zsum_single 0 n i (c a)) by lia.
      rewrite <- zsum_plus. apply zsum_ext. intros b _.
      rewrite pair_term_toggled by lia.
      destruct (Nat.eqb_spec a i); [contradiction|]. reflexivity. }
  rewrite zsum_plus. f_equal.
  rewrite (zsum_at n i x) by assumption.
  unfold x. rewrite <- zsum_plus, <- zsum_scale.
  apply zsum_ext. intros j Hj. apply in_seq in Hj. unfold c.
  destruct (Hund i j) as [Hsym Hirr]; try lia.
  destruct (Nat.eqb_spec j i) as [->|Hne].
  - rewrite Nat.ltb_irrefl, Hirr. cbv iota. simpl andb. simpl Z.b2z. lia.
  - destruct (Nat.ltb_spec i j), (Nat.ltb_spec j i);
      cbv iota; rewrite ?Hsym; first [ring | lia].
Qed.

End Flip.

(** ** Construction *)

Lemma init_inv (G : Globals) (u0 : R) (pts : list point) (rand : nat -> R)
  (self : UDMIS) :
  __init__ G u0 pts rand = Ok self ->
  u self = u0 /\ graph self = pts /\ num_vertices self = length pts /\
  wf self /\ symmetric_loopless (num_vertices self) (edges self) /\
  find_edges G self = Ok (edges self).
Proof.
  unfold __init__.
  set (self0 := {| u := u0; graph := pts; num_vertices := length pts;
                   occupations := _; edges := [] |}).
  destruct (find_edges G self0) as [e|x] eqn:He; simpl; [|discriminate].
  intros H. inversion H. subst self. clear H. simpl.
  pose proof (find_edges_symmetric_loopless G self0 e He) as Hsl.
  simpl in Hsl.
  split; [reflexivity|]. split; [reflexivity|]. split; [reflexivity|].
  split; [|split; [exact Hsl | exact He]].
  split; simpl.
  - unfold self0. simpl. now rewrite length_map, length_seq.
  - apply Hsl.
Qed.

Lemma wf_set_occupations (self : UDMIS) (occ : list bool) :
  wf self -> length occ = num_vertices self -> wf (set_occupations self occ).
Proof.
  intros [_ Hsq] Hocc. split; assumption.
Qed.

(** With the return expressions evaluated in exact reals, the flip changes
    the energy by exactly [energy_diff], on any well-shaped instance whose
    adjacency array is symmetric with a false diagonal. *)
Lemma energy_toggled (G : Globals) (self : UDMIS) (i : nat) :
  wf self -> undirected (num_vertices self) (edges self) ->
  (i < num_vertices self)%nat ->
  exists e d e',
    energy G self = Ok e /\
    energy_diff G self (Z.of_nat i) = Ok d /\
    toggle self (Z.of_nat i) = Ok (toggled self i) /\
    energy G (toggled self i) = Ok e' /\
    e' = e + d /\
    d = (if occ_at self i
         then 1 - global_u G * IZR (occupied_neighbours self i)
         else global_u G * IZR (occupied_neighbours self i) - 1).
Proof.
  intros Hwf Hund Hi.
  pose proof Hwf as [Hocc _].
  do 3 eexists.
  split; [apply energy_closed; [assumption | lia]|].
  split; [apply energy_diff_closed; assumption|].
  split; [apply toggle_nat; lia|].
  split; [apply energy_closed; [now apply wf_toggled | simpl; lia]|].
  rewrite interaction_sum_toggled, vertex_sum_toggled by assumption.
  rewrite !plus_IZR, mult_IZR. unfold flip_sign.
  destruct (occ_at self i); simpl IZR; split; ring.
Qed.

(** ** The counters behind the binary64 values *)

Lemma energy_b64_terms (u0 : PrimFloat.float) (self : UDMIS) :
  energy_b64 u0 self =
  (c <- energy_terms self ;;
   Ok (PrimFloat.sub (PrimFloat.mul u0 (b64_of_Z (fst c)))
                     (b64_of_Z (snd c)))).
Proof.
  unfold energy_b64, energy_terms.
  destruct (for_ _ (energy_outer self) _) as [[I V]|e]; cbn [bind];
    [|reflexivity].
  destruct (getitem _ _); reflexivity.
Qed.

Lemma energy_diff_b64_terms (u0 : PrimFloat.float) (self : UDMIS) (i : Z) :
  energy_diff_b64 u0 self i =
  (t <- energy_diff_terms self i ;;
   Ok (if fst t
       then PrimFloat.add (PrimFloat.mul (PrimFloat.opp u0) (b64_of_Z (snd t)))
                          (b64_of_Z 1)
       else PrimFloat.add (PrimFloat.mul u0 (b64_of_Z (snd t)))
                          (b64_of_Z (-1)))).
Proof.
  unfold energy_diff_b64, energy_diff_terms.
  destruct (getitem (edges self) i) as [row|e]; cbn [bind]; [|reflexivity].
  destruct (take _ _) as [occ|e]; cbn [bind]; [|reflexivity].
  destruct (getitem (occupations self) i) as [[|]|e]; reflexivity.
Qed.

(** [energy] and [energy_diff] are the same expressions of the same
    counters, evaluated in exact reals. *)
Lemma energy_as_terms (G : Globals) (self : UDMIS) :
  energy G self =
  (c <- energy_terms self ;; Ok (global_u G * IZR (fst c) - IZR (snd c))).
Proof.
  unfold energy, energy_terms.
  destruct (for_ _ (energy_outer self) _) as [[I V]|e]; cbn [bind];
    [|reflexivity].
  destruct (getitem _ _); reflexivity.
Qed.

Lemma energy_diff_as_terms (G : Globals) (self : UDMIS) (i : Z) :
  energy_diff G self i =
  (t <- energy_diff_terms self i ;;
   Ok (if fst t then - global_u G * IZR (snd t) + 1
       else global_u G * IZR (snd t) + -1)).
Proof.
  unfold energy_diff, energy_diff_terms.
  destruct (getitem (edges self) i) as [row|e]; cbn [bind]; [|reflexivity].
  destruct (take _ _) as [occ|e]; cbn [bind]; [|reflexivity].
  destruct (getitem (occupations self) i) as [[|]|e]; reflexivity.
Qed.

(** The conversion on the counts of the notebook's graph of 12 points, which
    has 66 pairs, and at the largest integer below [2^53]. *)
Section Conversion.

Import PrimFloat.

Example b64_of_Z_values :
  b64_of_Z 0 = 0%float /\
  b64_of_Z 1 = 1%float /\
  b64_of_Z 12 = 12%float /\
  b64_of_Z 66 = 66%float /\
  b64_of_Z (-1) = (-1)%float /\
  b64_of_Z 9007199254740991 = 9007199254740991%float.
Proof. repeat split; reflexivity. Qed.

End Conversion.

Lemma energy_terms_closed (self : UDMIS) :
  wf self -> (1 <= num_vertices self)%nat ->
  energy_terms self = Ok (interaction_sum self, vertex_sum self).
Proof.
  intros Hwf Hn. unfold energy_terms. set (n := num_vertices self) in *.
  rewrite range_upto.
  rewrite (for_zsum2 _ _
             (fun a => zsum (seq 0 n)
                (fun b => if (a <? b)%nat then pair_term self a b else 0%Z))
             (fun a => Z.b2z (occ_at self a))).
  - simpl. rewrite pred_index by assumption.
    destruct Hwf as [Hocc _]. fold n in Hocc.
    rewrite (getitem_nat _ (n - 1) false) by lia. simpl.
    unfold interaction_sum, vertex_sum. fold n.
    rewrite (zsum_seq_last n (fun a => Z.b2z (occ_at self a))) by assumption.
    rewrite (zsum_seq_last n (fun a => zsum (seq 0 n) _)) by assumption.
    cbv beta. rewrite (zsum_above n (n - 1)).
    replace (n - S (n - 1))%nat with 0%nat by lia.
    simpl (zsum (seq _ 0) _). rewrite Z.add_0_r. reflexivity.
  - intros k s t Hk. apply in_seq in Hk. apply energy_outer_eq; [assumption|].
    fold n. lia.
Qed.

Lemma energy_diff_terms_closed (self : UDMIS) (i : nat) :
  wf self -> (i < num_vertices self)%nat ->
  energy_diff_terms self (Z.of_nat i) =
  Ok (occ_at self i, occupied_neighbours self i).
Proof.
  intros Hwf Hi. destruct Hwf as [Hocc Hsq]. unfold energy_diff_terms.
  pose proof (square_row _ _ i Hsq Hi) as Hrow.
  rewrite (getitem_nat _ i []) by (destruct Hsq; lia). simpl.
  rewrite (take_nat _ _ false).
  - simpl. rewrite (getitem_nat _ i false) by lia. simpl.
    unfold where_. rewrite sum_where, Hrow.
    assert (Hk :
      zsum (seq 0 (num_vertices self))
        (fun j => Z.b2z (nth (j - 0) (nth i (edges self) []) false
                         && nth j (occupations self) false)) =
      occupied_neighbours self i).
    { apply zsum_ext. intros k _. now rewrite Nat.sub_0_r. }
    rewrite Hk. reflexivity.
  - intros k Hk. apply where_from_bound in Hk. lia.
Qed.

(** ** Counting *)

Lemma length_filter_pairs (a : nat) (B : list nat) (p : nat * nat -> bool) :
  Z.of_nat (length (filter p (map (pair a) B))) =
  zsum B (fun b => Z.b2z (p (a, b))).
Proof.
  induction B as [|b B IH]; simpl; [reflexivity|].
  destruct (p (a, b)); simpl length; simpl Z.b2z; lia.
Qed.

Lemma length_filter_prod (A B : list nat) (p : nat * nat -> bool) :
  Z.of_nat (length (filter p (list_prod A B))) =
  zsum A (fun a => zsum B (fun b => Z.b2z (p (a, b)))).
Proof.
  induction A as [|a A IH]; simpl; [reflexivity|].
  rewrite filter_app, length_app, Nat2Z.inj_add, IH, length_filter_pairs.
  reflexivity.
Qed.

Lemma interaction_sum_count (self : UDMIS) :
  interaction_sum self = Z.of_nat (occupied_edges self).
Proof.
  unfold interaction_sum, occupied_edges, all_pairs.
  rewrite length_filter_prod.
  apply zsum_ext. intros a _. apply zsum_ext. intros b _.
  unfold pair_term.
  destruct (a <? b)%nat, (entry (edges self) a b),
           (occ_at self a), (occ_at self b); reflexivity.
Qed.

Lemma count_occ_zsum (l : list bool) :
  zsum (seq 0 (length l)) (fun a => Z.b2z (nth a l false)) =
  Z.of_nat (count_occ bool_dec l true).
Proof.
  induction l as [|b l IH]; [reflexivity|].
  simpl length. simpl seq. rewrite zsum_cons, zsum_seq_shift.
  simpl nth at 1.
  change (zsum (seq 0 (length l)) (fun k => Z.b2z (nth (S k) (b :: l) false)))
    with (zsum (seq 0 (length l)) (fun k => Z.b2z (nth k l false))).
  rewrite IH. destruct b; simpl count_occ.
  - destruct (bool_dec true true); [|contradiction]. simpl Z.b2z. lia.
  - destruct (bool_dec false true); [discriminate|]. simpl Z.b2z. lia.
Qed.

Lemma vertex_sum_count (self : UDMIS) :
  wf self -> vertex_sum self = Z.of_nat (occupied_vertices self).
Proof.
  intros [Hocc _]. unfold vertex_sum, occupied_vertices, occ_at.
  rewrite <- Hocc. apply count_occ_zsum.
Qed.

Lemma getitem_In {A : Type} (l : list A) (k : Z) (a : A) :
  getitem l k = Ok a -> In a l.
Proof.
  unfold getitem. destruct (norm_index (length l) k) as [i|]; [|discriminate].
  destruct (nth_error l i) as [x|] eqn:E; [|discriminate].
  intros H. inversion H. subst. eapply nth_error_In. eassumption.
Qed.

Lemma getitem2_zeros (r c : nat) (i j : Z) (b : bool) :
  getitem2 (zeros r c) i j = Ok b -> b = false.
Proof.
  unfold getitem2, zeros.
  destruct (getitem (repeat (repeat false c) r) i) as [row|e] eqn:E;
    simpl; [|discriminate].
  apply getitem_In, repeat_spec in E. subst row.
  intros H. apply getitem_In, repeat_spec in H. assumption.
Qed.

(** ** Evaluation on given points *)

Lemma Rle_dec_true (x y : R) (A : Type) (a b : A) :
  x <= y -> (if Rle_dec x y then a else b) = a.
Proof.
  intros H. destruct (Rle_dec x y); [reflexivity | contradiction].
Qed.

Lemma Rle_dec_false (x y : R) (A : Type) (a b : A) :
  ~ x <= y -> (if Rle_dec x y then a else b) = b.
Proof.
  intros H. destruct (Rle_dec x y); [contradiction | reflexivity].
Qed.

Lemma Rlt_dec_true (x y : R) (A : Type) (a b : A) :
  x < y -> (if Rlt_dec x y then a else b) = a.
Proof.
  intros H. destruct (Rlt_dec x y); [reflexivity | contradiction].
Qed.

Lemma Rlt_dec_false (x y : R) (A : Type) (a b : A) :
  ~ x < y -> (if Rlt_dec x y then a else b) = b.
Proof.
  intros H. destruct (Rlt_dec x y); [contradiction | reflexivity].
Qed.

Lemma dij_within (x y x' y' : R) :
  (x - x') ^ 2 + (y - y') ^ 2 <= 1 -> dij (x, y) (x', y') <= 1.
Proof.
  intros H. unfold dij. rewrite <- sqrt_1. now apply sqrt_le_1_alt.
Qed.

Lemma dij_beyond (x y x' y' : R) :
  1 < (x - x') ^ 2 + (y - y') ^ 2 -> ~ dij (x, y) (x', y') <= 1.
Proof.
  intros H Hle. unfold dij in Hle.
  apply (Rlt_irrefl 1). eapply Rlt_le_trans; [|exact Hle].
  rewrite <- sqrt_1 at 1. apply sqrt_lt_1_alt. lra.
Qed.

Lemma find_edges_inner_within (G : Globals) (i j : nat) (pi pj : point)
  (m : matrix) :
  getitem (global_graph G) (Z.of_nat j) = Ok pj -> dij pi pj <= 1 ->
  find_edges_inner G i pi j m =
  (m1 <- setitem2 m (Z.of_nat i) (Z.of_nat j) true ;;
   setitem2 m1 (Z.of_nat j) (Z.of_nat i) true).
Proof.
  intros Hj Hd. unfold find_edges_inner. rewrite Hj. simpl.
  now rewrite Rle_dec_true.
Qed.

Lemma find_edges_inner_beyond (G : Globals) (i j : nat) (pi pj : point)
  (m : matrix) :
  getitem (global_graph G) (Z.of_nat j) = Ok pj -> ~ dij pi pj <= 1 ->
  find_edges_inner G i pi j m = Ok m.
Proof.
  intros Hj Hd. unfold find_edges_inner. rewrite Hj. simpl.
  now rewrite Rle_dec_false.
Qed.

(** Three points pairwise within distance 1 give the complete graph. *)
Lemma find_edges_triangle (G : Globals) (self : UDMIS) (p0 p1 p2 : point) :
  global_graph G = [p0; p1; p2] -> num_vertices self = 3%nat ->
  dij p0 p1 <= 1 -> dij p0 p2 <= 1 -> dij p1 p2 <= 1 ->
  find_edges G self = Ok complete3.
Proof.
  intros Hg Hn H01 H02 H12. unfold find_edges. rewrite Hn, range_upto.
  simpl seq. simpl for_. unfold find_edges_outer.
  rewrite !range_from. simpl seq. rewrite Hg.
  rewrite (getitem_nat _ 0 (0, 0)) by (simpl; lia).
  rewrite (getitem_nat _ 1 (0, 0)) by (simpl; lia).
  simpl nth. simpl bind. simpl for_.
  rewrite (find_edges_inner_within G 0 1 p0 p1) by (rewrite ?Hg; first [reflexivity | assumption]).
  simpl.
  rewrite (find_edges_inner_within G 0 2 p0 p2) by (rewrite ?Hg; first [reflexivity | assumption]).
  simpl.
  rewrite (find_edges_inner_within G 1 2 p1 p2) by (rewrite ?Hg; first [reflexivity | assumption]).
  reflexivity.
Qed.

Lemma triangle_within :
  dij (0, 0) (1 / 2, 0) <= 1 /\ dij (0, 0) (0, 1 / 2) <= 1 /\
  dij (1 / 2, 0) (0, 1 / 2) <= 1.
Proof.
  repeat split; apply dij_within; lra.
Qed.

Lemma triangle_init_with (u0 : R) :
  __init__ triangle_globals u0 triangle zero_draws =
  Ok (triangle_solver_with u0 [true; true; true]).
Proof.
  destruct triangle_within as (H01 & H02 & H12).
  unfold __init__.
  rewrite (find_edges_triangle _ _ (0, 0) (1 / 2, 0) (0, 1 / 2));
    try assumption; try reflexivity.
  simpl. unfold zero_draws.
  rewrite !Rlt_dec_true by lra. reflexivity.
Qed.

Lemma triangle_init :
  __init__ triangle_globals 2 triangle zero_draws =
  Ok (triangle_solver [true; true; true]).
Proof. exact (triangle_init_with 2). Qed.

Lemma wf_triangle_solver (occ : list bool) :
  length occ = 3%nat -> wf (triangle_solver occ).
Proof.
  intros H. split; [exact H|]. split; [reflexivity|].
  intros row Hin. simpl in Hin.
  destruct Hin as [<-|[<-|[<-|[]]]]; reflexivity.
Qed.

(** ** The running example, evaluated *)

Ltac count_sums :=
  unfold interaction_sum, vertex_sum, occupied_neighbours, pair_term, entry,
    occ_at, triangle_solver, triangle_solver_with;
  simpl.

Example energy_all_occupied :
  energy triangle_globals (triangle_solver [true; true; true]) = Ok 3.
Proof.
  rewrite energy_closed by (try apply wf_triangle_solver; simpl; auto).
  f_equal. count_sums. lra.
Qed.

Example energy_none_occupied :
  energy triangle_globals (triangle_solver [false; false; false]) = Ok 0.
Proof.
  rewrite energy_closed by (try apply wf_triangle_solver; simpl; auto).
  f_equal. count_sums. lra.
Qed.

Example energy_diff_occupied :
  energy_diff triangle_globals (triangle_solver [true; true; true]) 0
  = Ok (-3).
Proof.
  rewrite (energy_diff_closed triangle_globals (triangle_solver _)
             (wf_triangle_solver [_; _; _] eq_refl) 0) by (simpl; lia).
  f_equal. count_sums. lra.
Qed.

Example energy_diff_empty :
  energy_diff triangle_globals (triangle_solver [false; true; true]) 0
  = Ok 3.
Proof.
  rewrite (energy_diff_closed triangle_globals (triangle_solver _)
             (wf_triangle_solver [_; _; _] eq_refl) 0) by (simpl; lia).
  f_equal. count_sums. lra.
Qed.

Example energy_diff_last_by_negative_index :
  energy_diff triangle_globals (triangle_solver [false; false; true]) (-1)
  = Ok 1.
Proof.
  unfold energy_diff. simpl. unfold sum. simpl. f_equal. lra.
Qed.

Example toggle_middle :
  toggle (triangle_solver [true; false; true]) 1
  = Ok (triangle_solver [true; true; true]).
Proof. reflexivity. Qed.

(** * The properties *)

Section EnergyConsistency.

Import PrimFloat.
#[local] Set Warnings "-inexact-float".

Lemma triangle_init_mixed :
  __init__ {| global_u := 135 / 100; global_graph := triangle |} (135 / 100)
           triangle (fun k => if (k =? 0)%nat then 1 else 0) =
  Ok (triangle_solver_with (135 / 100) [false; true; true]).
Proof.
  destruct triangle_within as (H01 & H02 & H12).
  unfold __init__.
  rewrite (find_edges_triangle _ _ (0, 0) (1 / 2, 0) (0, 1 / 2));
    try assumption; try reflexivity.
  simpl. rewrite Rlt_dec_false by lra.
  rewrite !Rlt_dec_true by lra. reflexivity.
Qed.

(** C1, as stated, fails on the values the two methods return.  With the
    notebook's [u = 1.35] and the triangle the constructor builds with
    occupations [[False, True, True]]: [energy()] returns
    -0.6499999999999999 and [energy_diff(0)] returns 1.7000000000000002,
    whose sum is 1.0500000000000003, while [energy()] after the flip of
    vertex 0 returns 1.0500000000000007. *)
Lemma energy_diff_inconsistent_at_1_35 :
  __init__ {| global_u := 135 / 100; global_graph := triangle |} (135 / 100)
           triangle (fun k => if (k =? 0)%nat then 1 else 0) =
    Ok (triangle_solver_with (135 / 100) [false; true; true]) /\
  energy_b64 1.35 (triangle_solver_with (135 / 100) [false; true; true])
    = Ok (-0.6499999999999999)%float /\
  energy_diff_b64 1.35 (triangle_solver_with (135 / 100) [false; true; true]) 0
    = Ok 1.7000000000000002%float /\
  toggle (triangle_solver_with (135 / 100) [false; true; true]) 0
    = Ok (triangle_solver_with (135 / 100) [true; true; true]) /\
  energy_b64 1.35 (triangle_solver_with (135 / 100) [true; true; true])
    = Ok 1.0500000000000007%float /\
  (-0.6499999999999999 + 1.7000000000000002)%float
    = 1.0500000000000003%float /\
  1.0500000000000007%float
    <> (-0.6499999999999999 + 1.7000000000000002)%float.
Proof.
  split; [exact triangle_init_mixed|].
  split; [reflexivity|]. split; [reflexivity|]. split; [reflexivity|].
  split; [reflexivity|]. split; [reflexivity|].
  intros H.
  assert (E : (1.0500000000000007
               =? -0.6499999999999999 + 1.7000000000000002)%float = true)
    by (rewrite <- H; reflexivity).
  discriminate E.
Qed.

(** C1, amended (energy consistency of the incremental update, in the
    counters).  For every instance the constructor returns, every
    occupation vector and every vertex index [i]: [energy()],
    [energy_diff(i)] and the flip of [occupations[i]] all return; the flip
    moves the counter [vertex_term] of [energy] by one and the counter
    [interaction_term] by [k], the count [num_adjacent_occupied] of
    [energy_diff(i)], down when [i] was occupied and up when it was empty.
    The values returned are [u*I - V] before, [-u*k + 1.] or [u*k + -1.] for
    the difference, and [u*(I -+ k) - (V -+ 1)] after, each evaluated in
    binary64.  Read as real numbers, the expression after is the
    expression before plus the difference, in both directions; of the
    returned binary64 values no equality is stated. *)
Theorem energy_diff_consistent_in_counters
  (G0 : Globals) (u0 : R) (pts : list point) (rand : nat -> R)
  (self0 : UDMIS) (occ : list bool) (i : nat) (ub : float) (ur : R) :
  __init__ G0 u0 pts rand = Ok self0 ->
  length occ = num_vertices self0 ->
  (i < num_vertices self0)%nat ->
  exists I V k self',
    energy_terms (set_occupations self0 occ) = Ok (I, V) /\
    energy_diff_terms (set_occupations self0 occ) (Z.of_nat i)
      = Ok (nth i occ false, k) /\
    toggle (set_occupations self0 occ) (Z.of_nat i) = Ok self' /\
    occupations self' = update occ i (negb (nth i occ false)) /\
    energy_terms self' =
      Ok (if nth i occ false then (I - k, V - 1)%Z else (I + k, V + 1)%Z) /\
    energy_b64 ub (set_occupations self0 occ)
      = Ok (ub * b64_of_Z I - b64_of_Z V)%float /\
    energy_diff_b64 ub (set_occupations self0 occ) (Z.of_nat i)
      = Ok (if nth i occ false
            then (- ub * b64_of_Z k + 1)%float
            else (ub * b64_of_Z k + -1)%float) /\
    energy_b64 ub self'
      = Ok (if nth i occ false
            then (ub * b64_of_Z (I - k) - b64_of_Z (V - 1))%float
            else (ub * b64_of_Z (I + k) - b64_of_Z (V + 1))%float) /\
    (if nth i occ false
     then ur * IZR (I - k) - IZR (V - 1)
          = (ur * IZR I - IZR V) + (- ur * IZR k + 1)
     else ur * IZR (I + k) - IZR (V + 1)
          = (ur * IZR I - IZR V) + (ur * IZR k + -1)).
Proof.
  intros Hinit Hocc Hi. set (self := set_occupations self0 occ).
  destruct (init_inv _ _ _ _ _ Hinit) as (_ & _ & _ & Hwf & Hsl & _).
  assert (Hwf' : wf self) by now apply wf_set_occupations.
  assert (Hund : undirected (num_vertices self) (edges self))
    by now apply symmetric_loopless_undirected.
  assert (Hi' : (i < num_vertices self)%nat) by exact Hi.
  assert (Hn : (1 <= num_vertices self)%nat) by lia.
  assert (Hnth : occ_at self i = nth i occ false) by reflexivity.
  pose proof (energy_terms_closed self Hwf' Hn) as He.
  pose proof (energy_diff_terms_closed self i Hwf' Hi') as Hd.
  rewrite Hnth in Hd.
  assert (He' : energy_terms (toggled self i) =
                Ok (if nth i occ false
                    then (interaction_sum self - occupied_neighbours self i,
                          vertex_sum self - 1)%Z
                    else (interaction_sum self + occupied_neighbours self i,
                          vertex_sum self + 1)%Z)).
  { rewrite energy_terms_closed by (try apply wf_toggled; assumption).
    rewrite interaction_sum_toggled, vertex_sum_toggled by assumption.
    unfold flip_sign. rewrite Hnth.
    destruct (nth i occ false); do 2 f_equal; lia. }
  exists (interaction_sum self), (vertex_sum self),
    (occupied_neighbours self i), (toggled self i).
  split; [exact He|]. split; [exact Hd|].
  split; [apply toggle_nat; destruct Hwf' as [Ho _]; lia|].
  split; [reflexivity|]. split; [exact He'|].
  split; [rewrite energy_b64_terms, He; reflexivity|].
  split.
  { rewrite energy_diff_b64_terms, Hd. cbn [bind fst snd].
    destruct (nth i occ false); reflexivity. }
  split.
  { rewrite energy_b64_terms, He'.
    destruct (nth i occ false); reflexivity. }
  destruct (nth i occ false); rewrite ?plus_IZR, ?minus_IZR; simpl IZR; ring.
Qed.

Lemma energy_diff_consistent_in_counters_witness :
  __init__ {| global_u := 135 / 100; global_graph := triangle |} (135 / 100)
           triangle (fun k => if (k =? 0)%nat then 1 else 0) =
    Ok (triangle_solver_with (135 / 100) [false; true; true]) /\
  exists I V k self',
    energy_terms (triangle_solver_with (135 / 100) [true; false; true])
      = Ok (I, V) /\
    energy_diff_terms (triangle_solver_with (135 / 100) [true; false; true]) 1
      = Ok (false, k) /\
    toggle (triangle_solver_with (135 / 100) [true; false; true]) 1
      = Ok self' /\
    occupations self' = [true; true; true] /\
    energy_terms self' = Ok (I + k, V + 1)%Z /\
    energy_b64 1.35 (triangle_solver_with (135 / 100) [true; false; true])
      = Ok (1.35 * b64_of_Z I - b64_of_Z V)%float /\
    energy_diff_b64 1.35
      (triangle_solver_with (135 / 100) [true; false; true]) 1
      = Ok (1.35 * b64_of_Z k + -1)%float /\
    energy_b64 1.35 self'
      = Ok (1.35 * b64_of_Z (I + k) - b64_of_Z (V + 1))%float /\
    (135 / 100) * IZR (I + k) - IZR (V + 1)
    = ((135 / 100) * IZR I - IZR V) + ((135 / 100) * IZR k + -1).
Proof.
  split; [exact triangle_init_mixed|].
  exact (energy_diff_consistent_in_counters
           {| global_u := 135 / 100; global_graph := triangle |} (135 / 100)
           triangle (fun k => if (k =? 0)%nat then 1 else 0)
           (triangle_solver_with (135 / 100) [false; true; true])
           [true; false; true] 1%nat 1.35%float (135 / 100)
           triangle_init_mixed eq_refl ltac:(simpl; lia)).
Defined.

End EnergyConsistency.

(** C2 (the total energy is the UD-MIS Hamiltonian).  On every instance
    with at least one vertex, one occupation per vertex and a square
    adjacency array, [energy()] returns [u] times the number of adjacent
    pairs [(i, j)], [i < j], with both ends occupied, minus the number of
    occupied vertices; [u] is the interaction strength the method reads,
    which is the module-level variable. *)
Theorem energy_is_hamiltonian (G : Globals) (self : UDMIS) :
  wf self -> (1 <= num_vertices self)%nat ->
  energy G self = Ok (hamiltonian (global_u G) self).
Proof.
  intros Hwf Hn. unfold hamiltonian.
  rewrite (energy_closed G self Hwf Hn).
  rewrite interaction_sum_count, (vertex_sum_count self Hwf).
  now rewrite <- !INR_IZR_INZ.
Qed.

Lemma energy_is_hamiltonian_witness :
  wf (triangle_solver [true; true; false]) /\
  (1 <= num_vertices (triangle_solver [true; true; false]))%nat /\
  energy triangle_globals (triangle_solver [true; true; false]) =
  Ok (2 * INR 1 - INR 2).
Proof.
  split; [now apply wf_triangle_solver|].
  split; [simpl; lia|].
  apply (energy_is_hamiltonian triangle_globals
           (triangle_solver [true; true; false])).
  - now apply wf_triangle_solver.
  - simpl. lia.
Defined.

Lemma adjacent_iff_dij (pts : list point) (i j : nat) :
  (i < length pts)%nat -> (j < length pts)%nat ->
  (adjacent pts i j <->
   i <> j /\ dij (nth i pts (0, 0)) (nth j pts (0, 0)) <= 1).
Proof.
  intros Hi Hj. unfold adjacent.
  rewrite (nth_error_nth' pts (0, 0) Hi), (nth_error_nth' pts (0, 0) Hj).
  split.
  - intros (Hne & p & q & [= <-] & [= <-] & Hd).
    split; [assumption|]. now rewrite dij_euclidean.
  - intros (Hne & Hd). split; [assumption|].
    do 2 eexists. repeat split. now rewrite <- dij_euclidean.
Qed.

(** C4 (the adjacency relation).  [find_edges] reads its points from the
    module-level [graph], which in the notebooks is the sequence handed to
    the constructor.  For every such point sequence with a point for each of
    the [num_vertices] vertices, [find_edges] returns, and for all vertex
    indices [i], [j] the read [edges[i, j]] of the array it built returns a
    boolean that is true exactly when [i <> j] and the Euclidean distance of
    points [i] and [j] is at most 1; the relation is symmetric and
    [edges[i, i]] is false. *)
Theorem edges_unit_disk (G : Globals) (self : UDMIS) :
  (num_vertices self <= length (global_graph G))%nat ->
  exists m,
    find_edges G self = Ok m /\
    forall i j, (i < num_vertices self)%nat -> (j < num_vertices self)%nat ->
      exists b,
        getitem2 m (Z.of_nat i) (Z.of_nat j) = Ok b /\
        (b = true <-> adjacent (global_graph G) i j) /\
        getitem2 m (Z.of_nat j) (Z.of_nat i) = Ok b /\
        getitem2 m (Z.of_nat i) (Z.of_nat i) = Ok false.
Proof.
  intros Hlen.
  destruct (find_edges_total G self (or_introl Hlen)) as (m & Hm & Hsq & Hent).
  exists m. split; [exact Hm|].
  intros i j Hi Hj.
  destruct (find_edges_symmetric_loopless G self m Hm) as (_ & Hsym & Hirr).
  exists (entry m i j).
  split; [now apply (getitem2_nat (num_vertices self))|].
  split.
  - rewrite Hent by assumption.
    symmetry. apply adjacent_iff_dij; lia.
  - split.
    + rewrite (Hsym i j). now apply (getitem2_nat (num_vertices self)).
    + rewrite <- (Hirr i). now apply (getitem2_nat (num_vertices self)).
Qed.

Lemma edges_unit_disk_witness :
  (num_vertices (triangle_solver [true; true; true])
   <= length (global_graph triangle_globals))%nat /\
  exists m,
    find_edges triangle_globals (triangle_solver [true; true; true]) = Ok m /\
    forall i j, (i < 3)%nat -> (j < 3)%nat ->
      exists b,
        getitem2 m (Z.of_nat i) (Z.of_nat j) = Ok b /\
        (b = true <-> adjacent triangle i j) /\
        getitem2 m (Z.of_nat j) (Z.of_nat i) = Ok b /\
        getitem2 m (Z.of_nat i) (Z.of_nat i) = Ok false.
Proof.
  split; [simpl; lia|].
  apply (edges_unit_disk triangle_globals (triangle_solver [true; true; true])).
  simpl. lia.
Defined.

Lemma find_edges_pair (G : Globals) (self : UDMIS) (p0 p1 : point)
  (rest : list point) :
  global_graph G = p0 :: p1 :: rest -> num_vertices self = 2%nat ->
  find_edges G self =
  Ok (if Rle_dec (dij p0 p1) 1
      then [ [false; true]; [true; false] ]
      else zeros 2 2).
Proof.
  intros Hg Hn.
  assert (H1 : getitem (global_graph G) (Z.of_nat 1) = Ok p1).
  { rewrite Hg. apply (getitem_nat (p0 :: p1 :: rest) 1 (0, 0)). simpl. lia. }
  unfold find_edges. rewrite Hn, range_upto.
  simpl seq. simpl for_. unfold find_edges_outer.
  rewrite range_from. simpl seq. rewrite Hg.
  rewrite (getitem_nat _ 0 (0, 0)) by (simpl; lia).
  simpl nth. simpl bind. simpl for_.
  destruct (Rle_dec (dij p0 p1) 1) as [Hle|Hgt].
  - rewrite (find_edges_inner_within G 0 1 p0 p1)
      by assumption.
    reflexivity.
  - rewrite (find_edges_inner_beyond G 0 1 p0 p1)
      by assumption.
    reflexivity.
Qed.

(** C5 (the graph builder as a function of the constructor's points):
    evaluation at a failing input.  The same two points, half a unit apart,
    are handed to the constructor twice: once while the module-level [graph]
    holds these points, once while it holds the notebook's twelve points.
    The two instances get different adjacency arrays; the second has no
    edge although the points handed in are adjacent. *)
Theorem find_edges_reads_module_graph :
  exists s1 s2,
    __init__ {| global_u := 1.35; global_graph := close_pair |}
             1.35 close_pair zero_draws = Ok s1 /\
    __init__ notebook_globals 1.35 close_pair zero_draws = Ok s2 /\
    graph s1 = graph s2 /\
    edges s1 = [ [false; true]; [true; false] ] /\
    edges s2 = [ [false; false]; [false; false] ] /\
    adjacent close_pair 0 1.
Proof.
  do 2 eexists.
  split.
  { unfold __init__.
    rewrite (find_edges_pair _ _ (0, 0) (1 / 2, 0) []) by reflexivity.
    rewrite Rle_dec_true by (apply dij_within; lra).
    simpl. reflexivity. }
  split.
  { unfold __init__.
    rewrite (find_edges_pair _ _ (1.19, 4.25) (2.71, 3.48)
               (skipn 2 notebook_graph)) by reflexivity.
    rewrite Rle_dec_false by (apply dij_beyond; lra).
    simpl. reflexivity. }
  repeat (split; [reflexivity|]).
  apply adjacent_iff_dij; simpl; try lia.
  split; [lia | apply dij_within; lra].
Qed.

(** C6 (construction rejects invalid input), refuted.  The constructor
    returns an instance for the empty point set, and returns one for a
    negative [u]; so it is not true that every such call raises. *)
Lemma init_accepts_invalid_input :
  __init__ notebook_globals 1.35 [] zero_draws = Ok (empty_solver 1.35) /\
  __init__ triangle_globals (-1) triangle zero_draws =
    Ok (triangle_solver_with (-1) [true; true; true]) /\
  ~ (forall (G : Globals) (u0 : R) (pts : list point) (rand : nat -> R),
       pts = [] \/ u0 <= 0 -> exists e, __init__ G u0 pts rand = Raise e).
Proof.
  split; [reflexivity|]. split; [apply triangle_init_with|].
  intros H.
  destruct (H triangle_globals (-1) triangle zero_draws) as [e He]; [right; lra|].
  rewrite triangle_init_with in He. discriminate He.
Qed.

(** C6 as amended.  The constructor validates nothing: for every [u],
    non-positive ones included, and every point sequence, the empty one
    included, it returns an instance holding that [u], those points,
    [num_vertices = len(points)], one occupation per vertex and a square
    adjacency array, as long as the module-level [graph] has a point for
    every vertex (which is not needed for at most one point). *)
Theorem init_validates_nothing (G : Globals) (u0 : R) (pts : list point)
  (rand : nat -> R) :
  (length pts <= length (global_graph G) \/ length pts <= 1)%nat ->
  exists self,
    __init__ G u0 pts rand = Ok self /\
    u self = u0 /\ graph self = pts /\ num_vertices self = length pts /\
    wf self.
Proof.
  intros Hlen.
  set (self0 := {| u := u0; graph := pts; num_vertices := length pts;
                   occupations :=
                     map (fun k => if Rlt_dec (rand k) (1 / 2)
                                   then true else false)
                         (seq 0 (length pts));
                   edges := [] |}).
  destruct (find_edges_total G self0 Hlen) as (m & Hm & _).
  assert (Hinit : __init__ G u0 pts rand = Ok (set_edges self0 m)).
  { unfold __init__. fold self0. now rewrite Hm. }
  exists (set_edges self0 m). split; [exact Hinit|].
  destruct (init_inv _ _ _ _ _ Hinit) as (Hu & Hgr & Hn & Hwf & _).
  auto.
Qed.

Lemma init_validates_nothing_witness :
  (length (@nil point) <= 1)%nat /\
  exists self,
    __init__ notebook_globals (-1) [] zero_draws = Ok self /\
    u self = -1 /\ graph self = [] /\ num_vertices self = 0%nat /\
    wf self.
Proof.
  split; [simpl; lia|].
  apply (init_validates_nothing notebook_globals (-1) [] zero_draws).
  right. simpl. lia.
Defined.

Lemma length3 {A : Type} (l : list A) :
  length l = 3%nat -> exists a b c, l = [a; b; c].
Proof.
  destruct l as [|a [|b [|c [|d l]]]]; try discriminate. eauto.
Qed.

(** C7 (triangle scenario).  For three points pairwise within distance 1
    and interaction strength 2 (handed to the constructor and held by the
    module-level variables), the constructor returns; on the resulting graph
    [energy()] is 3 when all three vertices are occupied, -1 when exactly
    one is, and at least -1 for each of the eight occupation vectors. *)
Theorem triangle_energies (G : Globals) (p0 p1 p2 : point) (rand : nat -> R) :
  global_u G = 2 -> global_graph G = [p0; p1; p2] ->
  euclidean_distance p0 p1 <= 1 ->
  euclidean_distance p0 p2 <= 1 ->
  euclidean_distance p1 p2 <= 1 ->
  exists self,
    __init__ G 2 [p0; p1; p2] rand = Ok self /\
    energy G (set_occupations self [true; true; true]) = Ok 3 /\
    (forall occ, length occ = 3%nat -> count_occ bool_dec occ true = 1%nat ->
       energy G (set_occupations self occ) = Ok (-1)) /\
    (forall occ, length occ = 3%nat ->
       exists e, energy G (set_occupations self occ) = Ok e /\ -1 <= e).
Proof.
  intros Hu Hg H01 H02 H12. rewrite <- dij_euclidean in H01, H02, H12.
  set (self0 := {| u := 2; graph := [p0; p1; p2]; num_vertices := 3;
                   occupations :=
                     map (fun k => if Rlt_dec (rand k) (1 / 2)
                                   then true else false) (seq 0 3);
                   edges := [] |}).
  assert (Hinit : __init__ G 2 [p0; p1; p2] rand = Ok (set_edges self0 complete3)).
  { unfold __init__. simpl length. fold self0.
    now rewrite (find_edges_triangle G self0 p0 p1 p2). }
  exists (set_edges self0 complete3). split; [exact Hinit|].
  destruct (init_inv _ _ _ _ _ Hinit) as (_ & _ & _ & Hwf & _).
  assert (Hen : forall a b c,
            energy G (set_occupations (set_edges self0 complete3) [a; b; c]) =
            Ok (2 * IZR (Z.b2z (a && b) + Z.b2z (a && c) + Z.b2z (b && c))
                - IZR (Z.b2z a + Z.b2z b + Z.b2z c))).
  { intros a b c. rewrite energy_closed.
    - rewrite Hu. do 3 f_equal.
      + unfold interaction_sum, pair_term, occ_at, entry. simpl.
        destruct a, b, c; reflexivity.
      + unfold vertex_sum, occ_at. simpl. lia.
    - now apply wf_set_occupations.
    - simpl. lia. }
  split; [|split].
  - rewrite Hen. simpl. f_equal. lra.
  - intros occ Hlen Hcount.
    destruct (length3 occ Hlen) as (a & b & c & ->).
    rewrite Hen.
    destruct a, b, c; try discriminate Hcount; simpl; f_equal; lra.
  - intros occ Hlen.
    destruct (length3 occ Hlen) as (a & b & c & ->).
    eexists. split; [apply Hen|].
    destruct a, b, c; simpl; lra.
Qed.

Lemma triangle_energies_witness :
  exists self,
    __init__ triangle_globals 2 triangle zero_draws = Ok self /\
    energy triangle_globals (set_occupations self [true; true; true]) = Ok 3 /\
    (forall occ, length occ = 3%nat -> count_occ bool_dec occ true = 1%nat ->
       energy triangle_globals (set_occupations self occ) = Ok (-1)) /\
    (forall occ, length occ = 3%nat ->
       exists e, energy triangle_globals (set_occupations self occ) = Ok e /\
                 -1 <= e).
Proof.
  apply (triangle_energies triangle_globals (0, 0) (1 / 2, 0) (0, 1 / 2)
           zero_draws); try reflexivity;
    rewrite <- dij_euclidean; apply triangle_within.
Defined.

(** C8 (degenerate point sets).  With at most one point the constructor
    returns, whatever the module-level variables hold, and the adjacency
    array is the all-false array: no read [edges[i, j]], at any pair of
    integers, returns true. *)
Theorem no_edges_below_two_points (G : Globals) (u0 : R) (pts : list point)
  (rand : nat -> R) :
  (length pts <= 1)%nat ->
  exists self,
    __init__ G u0 pts rand = Ok self /\
    find_edges G self = Ok (edges self) /\
    edges self = zeros (length pts) (length pts) /\
    forall i j, getitem2 (edges self) i j <> Ok true.
Proof.
  intros Hlen.
  set (self0 := {| u := u0; graph := pts; num_vertices := length pts;
                   occupations :=
                     map (fun k => if Rlt_dec (rand k) (1 / 2)
                                   then true else false)
                         (seq 0 (length pts));
                   edges := [] |}).
  assert (Hfe : forall s, num_vertices s = length pts ->
            find_edges G s = Ok (zeros (length pts) (length pts))).
  { intros s Hs. unfold find_edges. rewrite Hs, range_upto.
    replace (length pts - 1)%nat with 0%nat by lia. reflexivity. }
  exists (set_edges self0 (zeros (length pts) (length pts))).
  split; [|split; [|split]].
  - unfold __init__. fold self0. now rewrite Hfe.
  - now apply Hfe.
  - reflexivity.
  - intros i j H. simpl in H. apply getitem2_zeros in H. discriminate.
Qed.

Lemma no_edges_below_two_points_witness :
  exists self,
    __init__ notebook_globals 1.35 [ (1.19, 4.25) ] zero_draws = Ok self /\
    find_edges notebook_globals self = Ok (edges self) /\
    edges self = zeros 1 1 /\
    forall i j, getitem2 (edges self) i j <> Ok true.
Proof.
  apply (no_edges_below_two_points notebook_globals 1.35 [ (1.19, 4.25) ]
           zero_draws).
  simpl. lia.
Defined.

Lemma energy_count (G : Globals) (self : UDMIS) :
  wf self -> (1 <= num_vertices self)%nat ->
  energy G self = Ok (hamiltonian (global_u G) self).
Proof.
  intros Hwf Hn. unfold hamiltonian.
  rewrite (energy_closed G self Hwf Hn).
  rewrite interaction_sum_count, (vertex_sum_count self Hwf).
  now rewrite <- !INR_IZR_INZ.
Qed.

(** C9 (the energies read the module-level [u]).  Two instances built from
    the same points and the same random draws but with different [u]
    arguments return the same [energy()] and the same [energy_diff(i)] under
    any one state of the module-level variables.  Those values are fixed by
    the module-level [u]: they are the same under two module states that
    agree on [u], with at least one vertex [energy()] is the Hamiltonian
    taken at the module-level [u], and when some adjacent pair is occupied
    two module states with different [u] give different energies. *)
Theorem energies_read_module_u (G0 G G' : Globals) (u1 u2 : R)
  (pts : list point) (rand : nat -> R) (s1 s2 : UDMIS) (i : Z) :
  __init__ G0 u1 pts rand = Ok s1 ->
  __init__ G0 u2 pts rand = Ok s2 ->
  u s1 = u1 /\ u s2 = u2 /\
  energy G s1 = energy G s2 /\
  energy_diff G s1 i = energy_diff G s2 i /\
  (global_u G' = global_u G ->
   energy G' s1 = energy G s1 /\ energy_diff G' s1 i = energy_diff G s1 i) /\
  ((1 <= length pts)%nat ->
   energy G s1 = Ok (hamiltonian (global_u G) s1)) /\
  ((1 <= length pts)%nat -> (0 < occupied_edges s1)%nat ->
   global_u G' <> global_u G -> energy G' s1 <> energy G s1).
Proof.
  intros H1 H2.
  destruct (init_inv _ _ _ _ _ H1) as (Hu1 & _ & Hn1 & Hwf1 & _).
  destruct (init_inv _ _ _ _ _ H2) as (Hu2 & _ & _).
  split; [exact Hu1|]. split; [exact Hu2|].
  assert (Hsame : num_vertices s1 = num_vertices s2 /\
                  occupations s1 = occupations s2 /\ edges s1 = edges s2).
  { unfold __init__ in H1, H2.
    match type of H1 with
    | (e <- find_edges G0 ?a ;; _) = _ =>
        match type of H2 with
        | (e <- find_edges G0 ?b ;; _) = _ =>
            change (find_edges G0 b) with (find_edges G0 a) in H2;
            destruct (find_edges G0 a) as [m|x]; [|discriminate]
        end
    end.
    simpl in H1, H2. inversion H1. inversion H2. simpl. auto. }
  destruct Hsame as (Hn & Hocc & Hed).
  split; [|split; [|split; [|split]]].
  - unfold energy, energy_outer, energy_inner. now rewrite Hn, Hocc, Hed.
  - unfold energy_diff. now rewrite Hocc, Hed.
  - intros Hg. unfold energy, energy_diff. now rewrite Hg.
  - intros Hlen. apply energy_count; [assumption | lia].
  - intros Hlen Hpos Hne.
    rewrite !energy_count by (try assumption; lia).
    unfold hamiltonian. intros Heq. inversion Heq as [Hval].
    apply Hne. apply (Rmult_eq_reg_r (INR (occupied_edges s1))); [lra|].
    apply not_0_INR. lia.
Qed.

Lemma energies_read_module_u_witness :
  u (triangle_solver_with 2 [true; true; true]) = 2 /\
  u (triangle_solver_with 5 [true; true; true]) = 5 /\
  energy triangle_globals (triangle_solver_with 2 [true; true; true]) =
  energy triangle_globals (triangle_solver_with 5 [true; true; true]) /\
  energy_diff triangle_globals (triangle_solver_with 2 [true; true; true]) 0 =
  energy_diff triangle_globals (triangle_solver_with 5 [true; true; true]) 0 /\
  (global_u notebook_globals = global_u triangle_globals ->
   energy notebook_globals (triangle_solver_with 2 [true; true; true]) =
   energy triangle_globals (triangle_solver_with 2 [true; true; true]) /\
   energy_diff notebook_globals (triangle_solver_with 2 [true; true; true]) 0 =
   energy_diff triangle_globals (triangle_solver_with 2 [true; true; true]) 0) /\
  ((1 <= length triangle)%nat ->
   energy triangle_globals (triangle_solver_with 2 [true; true; true]) =
   Ok (hamiltonian (global_u triangle_globals)
         (triangle_solver_with 2 [true; true; true]))) /\
  ((1 <= length triangle)%nat ->
   (0 < occupied_edges (triangle_solver_with 2 [true; true; true]))%nat ->
   global_u notebook_globals <> global_u triangle_globals ->
   energy notebook_globals (triangle_solver_with 2 [true; true; true]) <>
   energy triangle_globals (triangle_solver_with 2 [true; true; true])).
Proof.
  exact (energies_read_module_u triangle_globals triangle_globals
           notebook_globals 2 5 triangle zero_draws
           (triangle_solver_with 2 [true; true; true])
           (triangle_solver_with 5 [true; true; true]) 0%Z
           (triangle_init_with 2) (triangle_init_with 5)).
Defined.

(** C10 ([energy] is partial at zero vertices).  On an instance with one
    occupation per vertex and a square adjacency array, [energy()] raises
    [IndexError] exactly when there is no vertex (the read of
    [occupations[num_vertices - 1]] is then out of range), and returns a
    value as soon as there is one. *)
Theorem energy_needs_a_vertex (G : Globals) (self : UDMIS) :
  wf self ->
  (num_vertices self = 0%nat ->
   getitem (occupations self) (Z.of_nat (num_vertices self) - 1)
     = Raise IndexError) /\
  (energy G self = Raise IndexError <-> num_vertices self = 0%nat) /\
  ((1 <= num_vertices self)%nat -> exists e, energy G self = Ok e).
Proof.
  intros Hwf.
  assert (Hempty : num_vertices self = 0%nat -> occupations self = []).
  { intros Hn. destruct Hwf as [Hocc _]. rewrite Hn in Hocc.
    now apply length_zero_iff_nil. }
  split; [|split].
  - intros Hn. rewrite (Hempty Hn), Hn. reflexivity.
  - split.
    + intros He. destruct (num_vertices self) as [|n] eqn:Hn; [reflexivity|].
      rewrite energy_closed in He; [discriminate | assumption | lia].
    + intros Hn. apply energy_empty; auto.
  - intros Hn. eexists. now apply energy_closed.
Qed.

Lemma init_empty (G : Globals) (u0 : R) (rand : nat -> R) :
  __init__ G u0 [] rand = Ok (empty_solver u0).
Proof. reflexivity. Qed.

Lemma wf_empty_solver (u0 : R) : wf (empty_solver u0).
Proof.
  split; [reflexivity|]. split; [reflexivity|]. intros row [].
Qed.

Lemma energy_needs_a_vertex_witness :
  __init__ notebook_globals 1.35 [] zero_draws = Ok (empty_solver 1.35) /\
  (num_vertices (empty_solver 1.35) = 0%nat ->
   getitem (occupations (empty_solver 1.35))
     (Z.of_nat (num_vertices (empty_solver 1.35)) - 1) = Raise IndexError) /\
  (energy notebook_globals (empty_solver 1.35) = Raise IndexError <->
   num_vertices (empty_solver 1.35) = 0%nat) /\
  ((1 <= num_vertices (empty_solver 1.35))%nat ->
   exists e, energy notebook_globals (empty_solver 1.35) = Ok e).
Proof.
  split; [apply init_empty|].
  exact (energy_needs_a_vertex notebook_globals (empty_solver 1.35)
           (wf_empty_solver 1.35)).
Defined.

(** * Further properties of the class *)

(** ** When the constructor raises *)

Lemma getitem_beyond {A : Type} (l : list A) (i : nat) :
  (length l <= i)%nat -> getitem l (Z.of_nat i) = Raise IndexError.
Proof.
  intros Hi. unfold getitem. rewrite norm_index_nat.
  apply Nat.ltb_ge in Hi. now rewrite Hi.
Qed.

Lemma for_append {S : Type} (l1 l2 : list nat) (body : nat -> S -> result S)
  (s : S) :
  for_ (l1 ++ l2) body s = (s' <- for_ l1 body s ;; for_ l2 body s').
Proof.
  revert s. induction l1 as [|i l1 IH]; intros s; simpl; auto.
  destruct (body i s); simpl; auto.
Qed.

(** The first row of [find_edges] stops at the first missing point. *)
Lemma find_edges_short_graph (G : Globals) (self : UDMIS) :
  (2 <= num_vertices self)%nat ->
  (length (global_graph G) < num_vertices self)%nat ->
  find_edges G self = Raise IndexError.
Proof.
  intros Hn Hlen. unfold find_edges.
  set (n := num_vertices self) in *. set (g := global_graph G) in *.
  rewrite range_upto.
  replace (n - 1)%nat with (S (n - 2)) by lia. simpl seq. simpl for_.
  unfold find_edges_outer at 1. fold g.
  destruct (length g) as [|L] eqn:HL.
  - rewrite getitem_beyond by lia. reflexivity.
  - rewrite (getitem_nat g 0 (0, 0)) by lia. simpl bind.
    change (range 1 (Z.of_nat n)) with (range (Z.of_nat 0 + 1) (Z.of_nat n)).
    rewrite range_from.
    replace (n - 1)%nat with (L + (n - 1 - L))%nat by lia.
    rewrite seq_app, for_append.
    destruct (for_seq_inv (fun _ t => square n t)
                (find_edges_inner G 0 (nth 0 g (0, 0))) 1 L (zeros n n))
      as (m & Hm & Hsq).
    + apply square_zeros.
    + intros k t Hk Hsq.
      assert (Hkg : (k < length (global_graph G))%nat) by (fold g; lia).
      destruct (find_edges_inner_step G n 0 k (nth 0 g (0, 0)) t
                  Hsq ltac:(lia) ltac:(lia) Hkg) as (t' & Ht' & Hsq' & _).
      exists t'. auto.
    + rewrite Hm. simpl bind.
      replace (n - 1 - L)%nat with (S (n - 2 - L)) by lia. simpl seq.
      simpl for_. unfold find_edges_inner at 1. fold g.
      rewrite getitem_beyond by lia. reflexivity.
Qed.

(** X1.  The constructor returns exactly when the module-level [graph] has
    a point for every vertex or there is at most one point; in every other
    case it raises [IndexError], which comes from [find_edges] reading the
    module-level [graph] past its end. *)
Theorem init_returns_iff (G : Globals) (u0 : R) (pts : list point)
  (rand : nat -> R) :
  ((exists self, __init__ G u0 pts rand = Ok self) <->
   (length pts <= length (global_graph G) \/ length pts <= 1)%nat) /\
  ((length (global_graph G) < length pts)%nat -> (2 <= length pts)%nat ->
   __init__ G u0 pts rand = Raise IndexError).
Proof.
  set (self0 := {| u := u0; graph := pts; num_vertices := length pts;
                   occupations :=
                     map (fun k => if Rlt_dec (rand k) (1 / 2)
                                   then true else false)
                         (seq 0 (length pts));
                   edges := [] |}).
  assert (Hraise : (length (global_graph G) < length pts)%nat ->
                   (2 <= length pts)%nat ->
                   __init__ G u0 pts rand = Raise IndexError).
  { intros Hlen Hn. unfold __init__. fold self0.
    now rewrite (find_edges_short_graph G self0 Hn Hlen). }
  split; [|exact Hraise].
  split.
  - intros [self Hinit].
    destruct (Nat.le_gt_cases (length pts) (length (global_graph G)));
      [now left|].
    destruct (Nat.le_gt_cases (length pts) 1); [now right|].
    rewrite Hraise in Hinit by lia. discriminate.
  - intros Hlen.
    destruct (find_edges_total G self0 Hlen) as (m & Hm & _).
    exists (set_edges self0 m). unfold __init__. fold self0. now rewrite Hm.
Qed.

(** ** The adjacency array as a function of the distances *)

Lemma list_ext {A : Type} (d : A) (l l' : list A) :
  length l = length l' ->
  (forall k, (k < length l)%nat -> nth k l d = nth k l' d) ->
  l = l'.
Proof.
  revert l'. induction l as [|a l IH]; intros [|a' l'] Hlen H;
    try discriminate; [reflexivity|].
  f_equal.
  - apply (H 0%nat). simpl. lia.
  - apply IH; [simpl in Hlen; lia|].
    intros k Hk. apply (H (S k)). simpl. lia.
Qed.

Lemma square_ext (n : nat) (m m' : matrix) :
  square n m -> square n m' ->
  (forall a b, (a < n)%nat -> (b < n)%nat -> entry m a b = entry m' a b) ->
  m = m'.
Proof.
  intros Hsq Hsq' Hent.
  pose proof Hsq as [Hlen Hrows]. pose proof Hsq' as [Hlen' Hrows'].
  apply (list_ext []); [lia|].
  intros a Ha. rewrite Hlen in Ha.
  apply (list_ext false).
  - rewrite (square_row n m a), (square_row n m' a); auto.
  - intros b Hb. rewrite (square_row n m a) in Hb by assumption.
    now apply Hent.
Qed.

Lemma find_edges_same_distances (G G' : Globals) (self : UDMIS) :
  (num_vertices self <= length (global_graph G) \/ num_vertices self <= 1)%nat ->
  (num_vertices self <= length (global_graph G') \/ num_vertices self <= 1)%nat ->
  (forall a b, (a < num_vertices self)%nat -> (b < num_vertices self)%nat ->
     a <> b ->
     dij (nth a (global_graph G) (0, 0)) (nth b (global_graph G) (0, 0)) =
     dij (nth a (global_graph G') (0, 0)) (nth b (global_graph G') (0, 0))) ->
  exists m, find_edges G self = Ok m /\ find_edges G' self = Ok m.
Proof.
  intros Hlen Hlen' Hd.
  destruct (find_edges_total G self Hlen) as (m & Hm & Hsq & Hent).
  destruct (find_edges_total G' self Hlen') as (m' & Hm' & Hsq' & Hent').
  exists m. split; [exact Hm|]. rewrite Hm'. f_equal.
  apply (square_ext (num_vertices self)); try assumption.
  intros a b Ha Hb.
  specialize (Hent a b Ha Hb). specialize (Hent' a b Ha Hb).
  destruct (Nat.eq_dec a b) as [Hab|Hab].
  - destruct (entry m a b), (entry m' a b); try reflexivity.
    + destruct Hent as [Hent _]. destruct Hent; [reflexivity | contradiction].
    + destruct Hent' as [Hent' _]. destruct Hent'; [reflexivity | contradiction].
  - rewrite (Hd a b Ha Hb Hab) in Hent.
    destruct (entry m a b), (entry m' a b); try reflexivity.
    + destruct Hent as [Hent _].
      apply Hent' in Hent; [discriminate | reflexivity].
    + destruct Hent' as [Hent' _].
      apply Hent in Hent'; [discriminate | reflexivity].
Qed.

(** X2.  The array [find_edges] builds depends on the points only through
    the distances between them: two module-level graphs that both have a
    point for each of the [num_vertices] vertices, with the same distance
    for every pair of vertex indices, give the same array; in particular
    points past [num_vertices] are never looked at. *)
Theorem find_edges_by_distances (G G' : Globals) (self : UDMIS) :
  (num_vertices self <= length (global_graph G))%nat ->
  (num_vertices self <= length (global_graph G'))%nat ->
  (forall a b, (a < num_vertices self)%nat -> (b < num_vertices self)%nat ->
     dij (nth a (global_graph G) (0, 0)) (nth b (global_graph G) (0, 0)) =
     dij (nth a (global_graph G') (0, 0)) (nth b (global_graph G') (0, 0))) ->
  exists m, find_edges G self = Ok m /\ find_edges G' self = Ok m.
Proof.
  intros Hlen Hlen' Hd.
  apply find_edges_same_distances; auto.
Qed.

Lemma dij_translate (v p q : point) :
  dij (translate v p) (translate v q) = dij p q.
Proof.
  destruct v as [vx vy], p as [x y], q as [x' y'].
  unfold dij, translate. simpl. f_equal. ring.
Qed.

Lemma nth_translate (v : point) (g : list point) (a : nat) :
  (a < length g)%nat ->
  nth a (map (translate v) g) (0, 0) = translate v (nth a g (0, 0)).
Proof.
  intros Ha.
  rewrite (nth_indep _ (0, 0) (translate v (0, 0)))
    by now rewrite length_map.
  apply map_nth.
Qed.

Lemma find_edges_by_distances_witness :
  exists m,
    find_edges triangle_globals (triangle_solver [true; true; true]) = Ok m /\
    find_edges {| global_u := 2;
                  global_graph := firstn 3 triangle ++ notebook_graph |}
               (triangle_solver [true; true; true]) = Ok m.
Proof.
  apply (find_edges_by_distances triangle_globals
           {| global_u := 2;
              global_graph := firstn 3 triangle ++ notebook_graph |}
           (triangle_solver [true; true; true])).
  - simpl. lia.
  - simpl. lia.
  - intros a b Ha Hb. simpl in Ha, Hb.
    assert (Hcases : forall k, (k < 3)%nat -> k = 0%nat \/ k = 1%nat \/ k = 2%nat)
      by (intros; lia).
    destruct (Hcases a Ha) as [ -> | [ -> | -> ] ],
             (Hcases b Hb) as [ -> | [ -> | -> ] ];
      reflexivity.
Defined.

(** X3.  Moving every point of the module-level [graph] by one vector does
    not change what [find_edges] does: the same array when it returns, the
    same [IndexError] when the graph is too short. *)
Theorem find_edges_translation (G : Globals) (self : UDMIS) (v : point)
  (u' : R) :
  find_edges {| global_u := u';
                global_graph := map (translate v) (global_graph G) |} self
  = find_edges G self.
Proof.
  set (G' := {| global_u := u';
                global_graph := map (translate v) (global_graph G) |}).
  assert (Hlen : length (global_graph G') = length (global_graph G))
    by apply length_map.
  destruct (Nat.le_gt_cases (num_vertices self) (length (global_graph G)))
    as [Hle|Hgt].
  - destruct (find_edges_same_distances G' G self) as (m & Hm' & Hm).
    + left. lia.
    + now left.
    + intros a b Ha Hb _. simpl global_graph.
      rewrite !nth_translate by lia. apply dij_translate.
    + now rewrite Hm, Hm'.
  - destruct (Nat.le_gt_cases (num_vertices self) 1) as [H1|H2].
    + destruct (find_edges_same_distances G' G self) as (m & Hm' & Hm).
      * now right.
      * now right.
      * intros a b Ha Hb Hab. lia.
      * now rewrite Hm, Hm'.
    + rewrite !find_edges_short_graph by lia. reflexivity.
Qed.

(** ** Indexing of [energy_diff] *)

Lemma norm_index_wrap (len i : nat) :
  (i < len)%nat ->
  norm_index len (Z.of_nat i - Z.of_nat len) = Some i.
Proof.
  intros Hi. unfold norm_index.
  destruct (Z.ltb_spec (Z.of_nat i - Z.of_nat len) 0); [|lia].
  replace (Z.of_nat i - Z.of_nat len + Z.of_nat len)%Z with (Z.of_nat i)
    by lia.
  destruct (Z.leb_spec 0 (Z.of_nat i)); [|lia].
  destruct (Z.ltb_spec (Z.of_nat i) (Z.of_nat len)); [|lia].
  simpl. now rewrite Nat2Z.id.
Qed.

Lemma norm_index_outside (len : nat) (k : Z) :
  (k < - Z.of_nat len \/ Z.of_nat len <= k)%Z -> norm_index len k = None.
Proof.
  intros Hk. unfold norm_index.
  destruct (Z.ltb_spec k 0).
  - destruct (Z.leb_spec 0 (k + Z.of_nat len)); [lia | reflexivity].
  - destruct (Z.ltb_spec k (Z.of_nat len)); [lia|].
    now rewrite andb_false_r.
Qed.

Lemma getitem_wrap {A : Type} (l : list A) (i : nat) :
  (i < length l)%nat ->
  getitem l (Z.of_nat i - Z.of_nat (length l)) = getitem l (Z.of_nat i).
Proof.
  intros Hi. unfold getitem.
  rewrite norm_index_wrap by assumption. rewrite norm_index_nat.
  apply Nat.ltb_lt in Hi. now rewrite Hi.
Qed.

(** X4.  [energy_diff] follows NumPy indexing: on an instance of the right
    shape a negative index [i - num_vertices] addresses vertex [i] and gives
    the same value as [i], and an index outside
    [-num_vertices .. num_vertices - 1] raises [IndexError]. *)
Theorem energy_diff_index (G : Globals) (self : UDMIS) :
  wf self ->
  (forall i, (i < num_vertices self)%nat ->
     energy_diff G self (Z.of_nat i - Z.of_nat (num_vertices self)) =
     energy_diff G self (Z.of_nat i)) /\
  (forall k,
     (k < - Z.of_nat (num_vertices self) \/ Z.of_nat (num_vertices self) <= k)%Z ->
     energy_diff G self k = Raise IndexError).
Proof.
  intros [Hocc [Hlen _]]. split.
  - intros i Hi.
    assert (He : getitem (edges self)
                   (Z.of_nat i - Z.of_nat (num_vertices self))
                 = getitem (edges self) (Z.of_nat i)).
    { rewrite <- Hlen. apply getitem_wrap. lia. }
    assert (Ho : getitem (occupations self)
                   (Z.of_nat i - Z.of_nat (num_vertices self))
                 = getitem (occupations self) (Z.of_nat i)).
    { rewrite <- Hocc. apply getitem_wrap. lia. }
    unfold energy_diff. now rewrite He, Ho.
  - intros k Hk. unfold energy_diff, getitem at 1.
    rewrite norm_index_outside by (rewrite Hlen; exact Hk).
    reflexivity.
Qed.

Lemma energy_diff_index_witness :
  (forall i, (i < 3)%nat ->
     energy_diff triangle_globals (triangle_solver [true; false; true])
       (Z.of_nat i - 3) =
     energy_diff triangle_globals (triangle_solver [true; false; true])
       (Z.of_nat i)) /\
  (forall k, (k < - 3 \/ 3 <= k)%Z ->
     energy_diff triangle_globals (triangle_solver [true; false; true]) k
     = Raise IndexError).
Proof.
  apply (energy_diff_index triangle_globals
           (triangle_solver [true; false; true])).
  now apply wf_triangle_solver.
Defined.

(** ** How [energy_diff] changes when one occupation changes *)

Lemma occupied_neighbours_toggled (self : UDMIS) (i j : nat) :
  wf self -> (j < num_vertices self)%nat ->
  occupied_neighbours (toggled self j) i =
  (occupied_neighbours self i
   + flip_sign self j * Z.b2z (entry (edges self) i j))%Z.
Proof.
  intros [Hocc _] Hj. unfold occupied_neighbours. simpl num_vertices.
  simpl edges. set (n := num_vertices self) in *.
  transitivity
    (zsum (seq 0 n)
       (fun a => if (a =? j)%nat
                 then Z.b2z (entry (edges self) i j && negb (occ_at self j))
                 else Z.b2z (entry (edges self) i a && occ_at self a))).
  { apply zsum_ext. intros k _. rewrite occ_at_toggled by lia.
    now destruct (Nat.eqb_spec k j) as [->|]. }
  transitivity
    (zsum (seq 0 n)
       (fun a => if (a =? j)%nat
                 then Z.b2z (entry (edges self) i j && occ_at self j)
                 else Z.b2z (entry (edges self) i a && occ_at self a))
     + flip_sign self j * Z.b2z (entry (edges self) i j))%Z.
  { rewrite (zsum_at n j
               (Z.b2z (entry (edges self) i j && negb (occ_at self j))))
      by assumption.
    rewrite (zsum_at n j (Z.b2z (entry (edges self) i j && occ_at self j)))
      by assumption.
    unfold flip_sign.
    destruct (entry (edges self) i j), (occ_at self j);
      simpl andb; simpl negb; simpl Z.b2z; lia. }
  f_equal. apply zsum_ext. intros k _.
  now destruct (Nat.eqb_spec k j) as [->|].
Qed.

(** X5.  Flipping vertex [i] negates [energy_diff(i)]: on an instance of
    the right shape whose vertex [i] is not its own neighbour, the value
    after the occupation of [i] has been flipped is minus the value
    before. *)
Theorem energy_diff_negated_by_flip (G : Globals) (self : UDMIS) (i : nat) :
  wf self -> (i < num_vertices self)%nat ->
  entry (edges self) i i = false ->
  exists d,
    energy_diff G self (Z.of_nat i) = Ok d /\
    energy_diff G (toggled self i) (Z.of_nat i) = Ok (- d).
Proof.
  intros Hwf Hi Hloop.
  pose proof Hwf as [Hocc _].
  eexists. split; [now apply energy_diff_closed|].
  rewrite (energy_diff_closed G (toggled self i) (wf_toggled self i Hwf))
    by assumption.
  rewrite occupied_neighbours_toggled, Hloop by assumption.
  rewrite occ_at_toggled, Nat.eqb_refl by lia.
  simpl Z.b2z. rewrite Z.mul_0_r, Z.add_0_r.
  f_equal. destruct (occ_at self i); simpl negb; cbv iota; ring.
Qed.

Lemma energy_diff_negated_by_flip_witness :
  exists d,
    energy_diff triangle_globals (triangle_solver [true; false; true]) 1
      = Ok d /\
    energy_diff triangle_globals (triangle_solver [true; true; true]) 1
      = Ok (- d).
Proof.
  apply (energy_diff_negated_by_flip triangle_globals
           (triangle_solver [true; false; true]) 1).
  - now apply wf_triangle_solver.
  - simpl. lia.
  - reflexivity.
Defined.

Lemma find_edges_four (G : Globals) (self : UDMIS) (p0 p1 p2 p3 : point) :
  global_graph G = [p0; p1; p2; p3] -> num_vertices self = 4%nat ->
  dij p0 p1 <= 1 -> dij p0 p2 <= 1 -> dij p0 p3 <= 1 ->
  dij p1 p2 <= 1 -> dij p1 p3 <= 1 -> dij p2 p3 <= 1 ->
  find_edges G self = Ok complete4.
Proof.
  intros Hg Hn H01 H02 H03 H12 H13 H23. unfold find_edges.
  rewrite Hn, range_upto.
  simpl seq. simpl for_. unfold find_edges_outer.
  rewrite !range_from. simpl seq. rewrite Hg.
  rewrite (getitem_nat _ 0 (0, 0)) by (simpl; lia).
  rewrite (getitem_nat _ 1 (0, 0)) by (simpl; lia).
  rewrite (getitem_nat _ 2 (0, 0)) by (simpl; lia).
  simpl nth. simpl bind. simpl for_.
  rewrite (find_edges_inner_within G 0 1 p0 p1)
    by (rewrite ?Hg; first [reflexivity | assumption]).
  simpl.
  rewrite (find_edges_inner_within G 0 2 p0 p2)
    by (rewrite ?Hg; first [reflexivity | assumption]).
  simpl.
  rewrite (find_edges_inner_within G 0 3 p0 p3)
    by (rewrite ?Hg; first [reflexivity | assumption]).
  simpl.
  rewrite (find_edges_inner_within G 1 2 p1 p2)
    by (rewrite ?Hg; first [reflexivity | assumption]).
  simpl.
  rewrite (find_edges_inner_within G 1 3 p1 p3)
    by (rewrite ?Hg; first [reflexivity | assumption]).
  simpl.
  rewrite (find_edges_inner_within G 2 3 p2 p3)
    by (rewrite ?Hg; first [reflexivity | assumption]).
  reflexivity.
Qed.

(** The constructor builds the fully connected instance on [four_points]. *)
Lemma four_init :
  __init__ {| global_u := 135 / 100; global_graph := four_points |}
           (135 / 100) four_points (fun k => if (k =? 0)%nat then 1 else 0) =
  Ok (four_solver [false; true; true; true]).
Proof.
  unfold __init__.
  rewrite (find_edges_four _ _ (0, 0) (1 / 2, 0) (0, 1 / 2) (1 / 2, 1 / 2));
    try reflexivity; try (apply dij_within; lra).
  simpl. rewrite Rlt_dec_false by lra.
  rewrite !Rlt_dec_true by lra. reflexivity.
Qed.

Section EnergyDiffLocal.

Import PrimFloat.
#[local] Set Warnings "-inexact-float".

(** X6.  [energy_diff] is local.  The flip of another vertex [j] leaves
    the branch [energy_diff(i)] takes as it is, and changes its count
    [num_adjacent_occupied] only when [edges[i, j]] is true: by one, up when
    [j] was empty and down when [j] was occupied.  The value returned is the
    same binary64 expression of the module-level [u] at the new count, so
    it is unchanged when [edges[i, j]] is false. *)
Theorem energy_diff_local (ub : float) (self : UDMIS) (i j : nat) :
  wf self -> (i < num_vertices self)%nat -> (j < num_vertices self)%nat ->
  i <> j ->
  exists k k',
    k' = (if entry (edges self) i j
          then (if occ_at self j then k - 1 else k + 1)
          else k)%Z /\
    energy_diff_terms self (Z.of_nat i) = Ok (occ_at self i, k) /\
    energy_diff_terms (toggled self j) (Z.of_nat i) = Ok (occ_at self i, k') /\
    energy_diff_b64 ub self (Z.of_nat i) =
      Ok (if occ_at self i
          then (- ub * b64_of_Z k + 1)%float
          else (ub * b64_of_Z k + -1)%float) /\
    energy_diff_b64 ub (toggled self j) (Z.of_nat i) =
      Ok (if occ_at self i
          then (- ub * b64_of_Z k' + 1)%float
          else (ub * b64_of_Z k' + -1)%float).
Proof.
  intros Hwf Hi Hj Hij.
  pose proof Hwf as [Hocc _].
  pose proof (energy_diff_terms_closed self i Hwf Hi) as Hd.
  pose proof (energy_diff_terms_closed (toggled self j) i
                (wf_toggled self j Hwf) Hi) as Hd'.
  rewrite occupied_neighbours_toggled in Hd' by assumption.
  rewrite occ_at_toggled in Hd' by lia.
  destruct (Nat.eqb_spec i j) as [|_]; [contradiction|].
  assert (Hk : (occupied_neighbours self i
                + flip_sign self j * Z.b2z (entry (edges self) i j))%Z =
               (if entry (edges self) i j
                then (if occ_at self j then occupied_neighbours self i - 1
                      else occupied_neighbours self i + 1)
                else occupied_neighbours self i)%Z).
  { unfold flip_sign.
    destruct (entry (edges self) i j), (occ_at self j); simpl Z.b2z; lia. }
  rewrite Hk in Hd'.
  eexists. eexists. split; [reflexivity|].
  split; [exact Hd|]. split; [exact Hd'|].
  split.
  - rewrite energy_diff_b64_terms, Hd. cbn [bind fst snd].
    destruct (occ_at self i); reflexivity.
  - rewrite energy_diff_b64_terms, Hd'. cbn [bind fst snd].
    destruct (occ_at self i); reflexivity.
Qed.

Lemma energy_diff_local_witness :
  exists k k',
    k' = (if entry complete3 0 1
          then (if false then k - 1 else k + 1)
          else k)%Z /\
    energy_diff_terms (triangle_solver [true; false; true]) 0
      = Ok (true, k) /\
    energy_diff_terms (triangle_solver [true; true; true]) 0
      = Ok (true, k') /\
    energy_diff_b64 1.35 (triangle_solver [true; false; true]) 0 =
      Ok (- 1.35 * b64_of_Z k + 1)%float /\
    energy_diff_b64 1.35 (triangle_solver [true; true; true]) 0 =
      Ok (- 1.35 * b64_of_Z k' + 1)%float.
Proof.
  apply (energy_diff_local 1.35%float
           (triangle_solver [true; false; true]) 0 1).
  - now apply wf_triangle_solver.
  - simpl. lia.
  - simpl. lia.
  - discriminate.
Defined.

(** The returned value need not move by [u] itself: with the notebook's
    [u = 1.35] on four fully connected vertices, the count of vertex 0 going
    from 2 to 3 takes [energy_diff(0)] from 1.7000000000000002 to
    3.0500000000000007, while 1.7000000000000002 + 1.35 is
    3.0500000000000003. *)
Example energy_diff_moves_by_rounded_u :
  energy_diff_b64 1.35 (four_solver [false; true; true; false]) 0
    = Ok 1.7000000000000002%float /\
  toggle (four_solver [false; true; true; false]) 3
    = Ok (four_solver [false; true; true; true]) /\
  energy_diff_b64 1.35 (four_solver [false; true; true; true]) 0
    = Ok 3.0500000000000007%float /\
  (1.7000000000000002 + 1.35)%float = 3.0500000000000003%float.
Proof. repeat split; reflexivity. Qed.

End EnergyDiffLocal.

(** ** Local minima of the energy *)

Lemma zsum_b2z_nonneg (l : list nat) (q : nat -> bool) :
  (0 <= zsum l (fun k => Z.b2z (q k)))%Z.
Proof.
  rewrite <- zsum_filter. lia.
Qed.

Lemma zsum_b2z_zero (l : list nat) (q : nat -> bool) :
  zsum l (fun k => Z.b2z (q k)) = 0%Z <-> forall k, In k l -> q k = false.
Proof.
  rewrite <- zsum_filter. split.
  - intros H k Hk. destruct (q k) eqn:Hq; [|reflexivity].
    assert (Hin : In k (filter q l)) by (apply filter_In; auto).
    destruct (filter q l); [contradiction | discriminate].
  - intros H. replace (filter q l) with (@nil nat); [reflexivity|].
    symmetry. induction l as [|a l IH]; [reflexivity|]. simpl.
    rewrite (H a) by now left. apply IH. intros k Hk. apply H. now right.
Qed.

Lemma occupied_neighbours_zero (self : UDMIS) (i : nat) :
  occupied_neighbours self i = 0%Z <->
  forall j, (j < num_vertices self)%nat ->
    entry (edges self) i j = true -> occ_at self j = true -> False.
Proof.
  unfold occupied_neighbours. rewrite zsum_b2z_zero. split.
  - intros H j Hj He Ho. specialize (H j).
    rewrite He, Ho in H. discriminate H. apply in_seq. lia.
  - intros H j Hj. apply in_seq in Hj.
    destruct (entry (edges self) i j) eqn:He; [|reflexivity].
    destruct (occ_at self j) eqn:Ho; [|reflexivity].
    exfalso. apply (H j); auto. lia.
Qed.

Lemma occupied_neighbours_nonneg (self : UDMIS) (i : nat) :
  (0 <= occupied_neighbours self i)%Z.
Proof.
  apply zsum_b2z_nonneg.
Qed.

(** X7.  For a module-level [u] above 1, on an instance of the right
    shape: no flip lowers the energy, that is [energy_diff(i) >= 0] at
    every vertex, exactly when the occupied vertices form a maximal
    independent set of the graph (no occupied vertex has an occupied
    neighbour, every empty vertex has one). *)
Theorem no_descent_iff_maximal_independent (G : Globals) (self : UDMIS) :
  wf self -> 1 < global_u G ->
  ((forall i, (i < num_vertices self)%nat ->
      exists d, energy_diff G self (Z.of_nat i) = Ok d /\ 0 <= d) <->
   independent self /\ dominating self).
Proof.
  intros Hwf Hu.
  assert (Hpos : forall i, (occupied_neighbours self i <> 0)%Z ->
            1 <= IZR (occupied_neighbours self i)).
  { intros i Hne. apply IZR_le.
    pose proof (occupied_neighbours_nonneg self i). lia. }
  split.
  - intros Hmin. split.
    + intros a b Ha Hb He Hoa Hob.
      destruct (Hmin a Ha) as (d & Hd & Hd0).
      rewrite (energy_diff_closed G self Hwf a Ha), Hoa in Hd.
      inversion Hd as [Hval]. clear Hd.
      assert (Hne : (occupied_neighbours self a <> 0)%Z).
      { intros Hz. apply (proj1 (occupied_neighbours_zero self a) Hz b); auto. }
      specialize (Hpos a Hne). nra.
    + intros a Ha Hoa.
      destruct (Hmin a Ha) as (d & Hd & Hd0).
      rewrite (energy_diff_closed G self Hwf a Ha), Hoa in Hd.
      inversion Hd as [Hval]. clear Hd.
      destruct (Z.eq_dec (occupied_neighbours self a) 0) as [Hz|Hne].
      * rewrite Hz in Hval. simpl in Hval. lra.
      * unfold occupied_neighbours in Hne.
        destruct (existsb
                    (fun j => entry (edges self) a j && occ_at self j)
                    (seq 0 (num_vertices self))) eqn:Hex.
        -- apply existsb_exists in Hex. destruct Hex as (b & Hb & Hq).
           apply in_seq in Hb. apply andb_true_iff in Hq.
           exists b. split; [lia | exact Hq].
        -- exfalso. apply Hne. apply zsum_b2z_zero.
           intros k Hk.
           destruct (entry (edges self) a k && occ_at self k) eqn:Hq;
             [|reflexivity].
           assert (Hex' : existsb
                     (fun j => entry (edges self) a j && occ_at self j)
                     (seq 0 (num_vertices self)) = true)
             by (apply existsb_exists; eauto).
           congruence.
  - intros [Hind Hdom] i Hi.
    eexists. split; [now apply energy_diff_closed|].
    destruct (occ_at self i) eqn:Hoi.
    + assert (Hz : occupied_neighbours self i = 0%Z).
      { apply occupied_neighbours_zero. intros j Hj He Hoj.
        apply (Hind i j); auto. }
      rewrite Hz. simpl. lra.
    + destruct (Hdom i Hi Hoi) as (b & Hb & He & Hob).
      assert (Hne : (occupied_neighbours self i <> 0)%Z).
      { intros Hz. apply (proj1 (occupied_neighbours_zero self i) Hz b); auto. }
      specialize (Hpos i Hne). nra.
Qed.

Lemma no_descent_iff_maximal_independent_witness :
  (forall i, (i < 3)%nat ->
     exists d,
       energy_diff triangle_globals (triangle_solver [false; true; false])
         (Z.of_nat i) = Ok d /\ 0 <= d) <->
  independent (triangle_solver [false; true; false]) /\
  dominating (triangle_solver [false; true; false]).
Proof.
  apply (no_descent_iff_maximal_independent triangle_globals
           (triangle_solver [false; true; false])).
  - now apply wf_triangle_solver.
  - simpl. lra.
Defined.

(** ** Bounds on the energy *)

Lemma count_occ_le_length (l : list bool) :
  (count_occ bool_dec l true <= length l)%nat.
Proof.
  induction l as [|b l IH]; simpl; [lia|].
  destruct (bool_dec b true); lia.
Qed.

(** X8.  For a module-level [u >= 0], on an instance of the right shape
    with at least one vertex, [energy()] is at least minus the number of
    occupied vertices, hence at least [-num_vertices]; for [u > 0] it equals
    minus the number of occupied vertices exactly when no adjacent pair
    [i < j] is occupied at both ends. *)
Theorem energy_lower_bound (G : Globals) (self : UDMIS) :
  wf self -> (1 <= num_vertices self)%nat -> 0 <= global_u G ->
  exists e,
    energy G self = Ok e /\
    - INR (num_vertices self) <= - INR (occupied_vertices self) <= e /\
    (0 < global_u G ->
     (e = - INR (occupied_vertices self) <-> occupied_edges self = 0%nat)).
Proof.
  intros Hwf Hn Hu.
  exists (hamiltonian (global_u G) self).
  split; [now apply energy_count|].
  unfold hamiltonian.
  pose proof (pos_INR (occupied_edges self)) as HE.
  assert (HV : INR (occupied_vertices self) <= INR (num_vertices self)).
  { apply le_INR. destruct Hwf as [Hocc _]. rewrite <- Hocc.
    apply count_occ_le_length. }
  split; [split; nra|].
  intros Hpos. split.
  - intros Heq.
    assert (Hz : INR (occupied_edges self) = 0) by nra.
    destruct (occupied_edges self) as [|k]; [reflexivity|].
    exfalso. revert Hz. apply not_0_INR. discriminate.
  - intros ->. simpl. lra.
Qed.

Lemma energy_lower_bound_witness :
  exists e,
    energy triangle_globals (triangle_solver [false; true; false]) = Ok e /\
    - INR 3 <= - INR (occupied_vertices (triangle_solver [false; true; false]))
            <= e /\
    (0 < global_u triangle_globals ->
     (e = - INR (occupied_vertices (triangle_solver [false; true; false])) <->
      occupied_edges (triangle_solver [false; true; false]) = 0%nat)).
Proof.
  apply (energy_lower_bound triangle_globals
           (triangle_solver [false; true; false])).
  - now apply wf_triangle_solver.
  - simpl. lia.
  - simpl. lra.
Defined.

(** * The annealing run *)

Lemma for_seq_partial {S : Type} (P : nat -> S -> Prop)
  (body : nat -> S -> result S) (a len : nat) (s s' : S) :
  for_ (seq a len) body s = Ok s' ->
  P a s ->
  (forall k t t', (a <= k < a + len)%nat -> P k t -> body k t = Ok t' ->
                  P (Datatypes.S k) t') ->
  P (a + len)%nat s'.
Proof.
  revert a s. induction len as [|len IH]; intros a s Hrun H0 Hstep;
    simpl in Hrun.
  - inversion Hrun. subst. now rewrite Nat.add_0_r.
  - destruct (body a s) as [t|e] eqn:Hb; simpl in Hrun; [|discriminate].
    replace (a + Datatypes.S len)%nat with (Datatypes.S a + len)%nat by lia.
    apply (IH (Datatypes.S a) t); auto.
    + apply (Hstep a s t); auto. lia.
    + intros k t0 t' Hk. apply Hstep. lia.
Qed.

Lemma getitem_ok_lt {A : Type} (l : list A) (i : nat) (x : A) :
  getitem l (Z.of_nat i) = Ok x -> (i < length l)%nat.
Proof.
  intros H. destruct (Nat.lt_ge_cases i (length l)) as [Hlt|Hge]; [exact Hlt|].
  rewrite getitem_beyond in H by assumption. discriminate.
Qed.

Lemma nth_error_snoc {A : Type} (l : list A) (x : A) :
  nth_error (l ++ [x]) (length l) = Some x.
Proof.
  rewrite nth_error_app2 by lia. now rewrite Nat.sub_diag.
Qed.

Lemma nth_error_snoc_before {A : Type} (l : list A) (x : A) (k : nat) :
  (k < length l)%nat -> nth_error (l ++ [x]) k = nth_error l k.
Proof.
  intros Hk. now apply nth_error_app1.
Qed.

Section Sim.

Variable mc_step : nat -> UDMIS -> R -> result (UDMIS * R).
Variable T : list R.
Variable udmis : UDMIS.

Lemma sim_inv_step (t : nat) (st st' : UDMIS * trace) :
  sim_inv mc_step T udmis t st -> sim_body mc_step T t st = Ok st' ->
  sim_inv mc_step T udmis (S t) st'.
Proof.
  destruct st as [u1 [strings energies]]. unfold sim_inv, sim_body.
  intros (HT & H0 & HS & Hlen & Hcnt & Hsam).
  destruct (getitem T (Z.of_nat t)) as [temp|e] eqn:Htemp; cbn [bind];
    [|discriminate].
  apply getitem_ok_lt in Htemp as Hlt.
  destruct (mc_step t u1 temp) as [[u2 E]|e] eqn:Hstep; cbn [bind];
    [|discriminate].
  assert (Hcall : call mc_step T udmis t = Ok (u2, E)).
  { destruct t as [|t'].
    - simpl. change 0%Z with (Z.of_nat 0). rewrite Htemp. simpl.
      now rewrite <- (H0 eq_refl).
    - destruct (HS t' eq_refl) as [E' HE'].
      simpl call. rewrite HE'. simpl bind.
      change (Z.pos (Pos.of_succ_nat t')) with (Z.of_nat (S t')).
      rewrite Htemp. simpl. exact Hstep. }
  destruct (Nat.eqb_spec (t mod 100) 0) as [Hmod|Hmod].
  - intros Hst. injection Hst as <-.
    assert (Ht : t = (100 * length strings)%nat).
    { pose proof (Nat.div_mod_eq t 100) as Hdm. rewrite Hmod in Hdm. nia. }
    split; [lia|]. split; [discriminate|].
    split; [intros t' Heq; injection Heq as <-; eauto|].
    split; [rewrite !length_app; simpl; lia|].
    split; [rewrite length_app; simpl; lia|].
    intros k Hk.
    destruct (Nat.eq_dec k (length strings)) as [->|Hne].
    + exists u2, E. rewrite <- Ht. split; [exact Hcall|].
      split; [apply nth_error_snoc|].
      rewrite <- Hlen. apply nth_error_snoc.
    + assert (Hk' : (100 * k < t)%nat) by lia.
      destruct (Hsam k Hk') as (s & E0 & Hc & Hs & He).
      exists s, E0. split; [exact Hc|].
      rewrite !nth_error_snoc_before by lia. auto.
  - intros Hst. injection Hst as <-.
    assert (Ht : t <> (100 * length strings)%nat).
    { intros Heq. apply Hmod. rewrite Heq, Nat.mul_comm.
      apply Nat.Div0.mod_mul. }
    split; [lia|]. split; [discriminate|].
    split; [intros t' Heq; injection Heq as <-; eauto|].
    split; [exact Hlen|]. split; [lia|].
    intros k Hk. apply Hsam.
    assert (t <> (100 * k)%nat).
    { intros Heq. apply Hmod. rewrite Heq, Nat.mul_comm.
      apply Nat.Div0.mod_mul. }
    lia.
Qed.

Lemma sim_inv_end (N : Z) (st : UDMIS * trace) :
  (0 <= N)%Z -> sim mc_step N udmis T = Ok st ->
  sim_inv mc_step T udmis (Z.to_nat N + 1) st.
Proof.
  intros HN Hrun. unfold sim, range in Hrun.
  replace (Z.to_nat (N + 1 - 0)) with (Z.to_nat N + 1)%nat in Hrun by lia.
  change (Z.to_nat 0) with 0%nat in Hrun.
  apply (for_seq_partial (sim_inv mc_step T udmis) _ _ _ _ _ Hrun).
  - unfold sim_inv. simpl.
    split; [lia|]. split; [reflexivity|]. split; [discriminate|].
    split; [reflexivity|]. split; [lia|]. intros k Hk. lia.
  - intros k t t' _. apply sim_inv_step.
Qed.

End Sim.

Lemma sim_body_total (mc_step : nat -> UDMIS -> R -> result (UDMIS * R))
  (Inv : UDMIS -> Prop) (T : list R) (t : nat) (u1 : UDMIS) (tr : trace) :
  (forall k s temp, Inv s ->
     exists s' E, mc_step k s temp = Ok (s', E) /\ Inv s') ->
  (t < length T)%nat -> Inv u1 ->
  exists u2 tr',
    sim_body mc_step T t (u1, tr) = Ok (u2, tr') /\ Inv u2 /\
    (fst tr' = fst tr \/ fst tr' = fst tr ++ [occupations u2]).
Proof.
  intros Hstep Ht Hinv. destruct tr as [strings energies].
  unfold sim_body. rewrite (getitem_nat T t 0) by assumption. cbn [bind].
  destruct (Hstep t u1 (nth t T 0) Hinv) as (u2 & E & Hm & Hinv2).
  rewrite Hm. cbn [bind].
  destruct (t mod 100 =? 0)%nat; eexists; eexists;
    (split; [reflexivity|]); (split; [assumption|]); simpl; auto.
Qed.

Lemma sim_run_exists (mc_step : nat -> UDMIS -> R -> result (UDMIS * R))
  (Inv : UDMIS -> Prop) (N : Z) (udmis : UDMIS) (T : list R) :
  (Z.to_nat (N + 1) <= length T)%nat -> Inv udmis ->
  (forall k s temp, Inv s ->
     exists s' E, mc_step k s temp = Ok (s', E) /\ Inv s') ->
  exists uN strings energies,
    sim mc_step N udmis T = Ok (uN, (strings, energies)).
Proof.
  intros HT Hinv Hstep. unfold sim, range.
  change (Z.to_nat 0) with 0%nat.
  replace (Z.to_nat (N + 1 - 0)) with (Z.to_nat (N + 1)) by lia.
  destruct (for_seq_inv (fun _ st => Inv (fst st))
              (sim_body mc_step T) 0 (Z.to_nat (N + 1)) (udmis, ([], [])))
    as ([uN [strings energies]] & Hrun & _).
  - exact Hinv.
  - intros k [u1 tr] Hk Hi. simpl in Hi.
    destruct (sim_body_total mc_step Inv T k u1 tr Hstep ltac:(lia) Hi)
      as (u2 & tr' & Hb & Hi2 & _).
    exists (u2, tr'). auto.
  - exists uN, strings, energies. exact Hrun.
Qed.

(** X10.  [sim(T)] returns when [T] has at least [N + 1] entries and the
    stepping method returns on every instance that satisfies a property it
    keeps, the starting instance being one; the instance left behind
    satisfies the property, and every recorded occupation vector is that of
    an instance satisfying it. *)
Theorem sim_returns (mc_step : nat -> UDMIS -> R -> result (UDMIS * R))
  (Inv : UDMIS -> Prop) (N : Z) (udmis : UDMIS) (T : list R) :
  (Z.to_nat (N + 1) <= length T)%nat -> Inv udmis ->
  (forall k s temp, Inv s ->
     exists s' E, mc_step k s temp = Ok (s', E) /\ Inv s') ->
  exists uN strings energies,
    sim mc_step N udmis T = Ok (uN, (strings, energies)) /\ Inv uN /\
    Forall (fun st => exists s, Inv s /\ st = occupations s) strings.
Proof.
  intros HT Hinv Hstep. unfold sim, range.
  change (Z.to_nat 0) with 0%nat.
  replace (Z.to_nat (N + 1 - 0)) with (Z.to_nat (N + 1)) by lia.
  destruct (for_seq_inv
              (fun _ st => Inv (fst st) /\
                 Forall (fun v => exists s, Inv s /\ v = occupations s)
                        (fst (snd st)))
              (sim_body mc_step T) 0 (Z.to_nat (N + 1)) (udmis, ([], [])))
    as ([uN [strings energies]] & Hrun & HinvN & Hall).
  - simpl. auto.
  - intros k [u1 tr] Hk [Hi Hall]. simpl in Hi, Hall.
    destruct (sim_body_total mc_step Inv T k u1 tr Hstep ltac:(lia) Hi)
      as (u2 & tr' & Hb & Hi2 & Htr).
    exists (u2, tr'). split; [exact Hb|]. simpl. split; [exact Hi2|].
    destruct Htr as [->| ->]; [exact Hall|].
    apply Forall_app. split; [exact Hall|].
    constructor; [eauto | constructor].
  - exists uN, strings, energies. auto.
Qed.

Lemma div100_succ (N : Z) (c : nat) :
  (0 <= N)%Z ->
  (Z.to_nat N + 1 <= 100 * c < Z.to_nat N + 1 + 100)%nat ->
  c = (Z.to_nat (N / 100) + 1)%nat.
Proof.
  intros HN Hc.
  pose proof (Z.div_mod N 100 ltac:(lia)) as Hdm.
  pose proof (Z.mod_pos_bound N 100 ltac:(lia)) as Hm.
  assert (0 <= N / 100)%Z by (apply Z.div_pos; lia).
  lia.
Qed.

(** X9.  Whatever the stepping method does: when [sim(T)] returns (with
    the module-level [N >= 0]), [T] had at least [N + 1] entries, both
    returned lists have [N // 100 + 1] entries, entry [k] of [strings] is
    the occupation vector left by the call of [mc_step] at loop index
    [100 k] and entry [k] of [energies] is the value that call returned, and
    the instance is left as the call at index [N] left it. *)
Theorem sim_trace (mc_step : nat -> UDMIS -> R -> result (UDMIS * R))
  (N : Z) (udmis uN : UDMIS) (T : list R)
  (strings : list (list bool)) (energies : list R) :
  (0 <= N)%Z ->
  sim mc_step N udmis T = Ok (uN, (strings, energies)) ->
  (Z.to_nat N + 1 <= length T)%nat /\
  length strings = (Z.to_nat (N / 100) + 1)%nat /\
  length energies = (Z.to_nat (N / 100) + 1)%nat /\
  (forall k, (100 * Z.of_nat k <= N)%Z ->
     exists s E, call mc_step T udmis (100 * k) = Ok (s, E) /\
                 nth_error strings k = Some (occupations s) /\
                 nth_error energies k = Some E) /\
  (exists E, call mc_step T udmis (Z.to_nat N) = Ok (uN, E)).
Proof.
  intros HN Hrun.
  pose proof (sim_inv_end mc_step T udmis N _ HN Hrun) as Hinv.
  unfold sim_inv in Hinv.
  destruct Hinv as (HT & _ & Hlast & Hlen & Hcnt & Hsam).
  assert (Hc : length strings = (Z.to_nat (N / 100) + 1)%nat)
    by now apply div100_succ.
  split; [exact HT|]. split; [exact Hc|]. split; [now rewrite Hlen|].
  split.
  - intros k Hk. apply Hsam. lia.
  - apply Hlast. lia.
Qed.

(** ** A returning run: the Metropolis step on the triangle *)

Lemma metropolis_keeps_shape (G : Globals) (draws : nat -> nat)
  (rs : nat -> R) (t : nat) (s : UDMIS) (temp : R) :
  wf s /\ (1 <= num_vertices s)%nat ->
  exists s' E,
    metropolis G draws rs t s temp = Ok (s', E) /\
    (wf s' /\ (1 <= num_vertices s')%nat).
Proof.
  intros [Hwf Hn]. unfold metropolis, MetropolisStep.
  set (i := (draws t mod num_vertices s)%nat).
  assert (Hi : (i < num_vertices s)%nat) by (apply Nat.mod_upper_bound; lia).
  assert (Hrv : rand_vertex s (draws t) = Ok i).
  { unfold rand_vertex.
    destruct (Nat.eqb_spec (num_vertices s) 0); [lia | reflexivity]. }
  rewrite Hrv. cbn [bind].
  rewrite (energy_diff_closed G s Hwf i Hi). cbn [bind].
  assert (Htog : toggle s (Z.of_nat i) = Ok (toggled s i)).
  { apply toggle_nat. destruct Hwf as [Hocc _]. lia. }
  assert (Hdone : forall s', wf s' -> (1 <= num_vertices s')%nat ->
            exists s'' E,
              (e <- energy G s' ;; Ok (s', e)) = Ok (s'', E) /\
              (wf s'' /\ (1 <= num_vertices s'')%nat)).
  { intros s' Hwf' Hn'. rewrite (energy_closed G s' Hwf' Hn'). cbn [bind].
    eauto. }
  pose proof (wf_toggled s i Hwf) as Hwft.
  destruct (Rle_dec _ 0).
  - rewrite Htog. cbn [bind]. now apply Hdone.
  - destruct (Rlt_dec _ _).
    + rewrite Htog. cbn [bind]. now apply Hdone.
    + cbn [bind]. now apply Hdone.
Qed.

Lemma length_exp1 (T_i T_f : R) (N : Z) :
  length (exp1 T_i T_f N) = Z.to_nat (N + 1).
Proof.
  unfold exp1, range. rewrite length_map, length_seq. f_equal. lia.
Qed.

Lemma notebook_run :
  exists uN strings energies,
    sim (metropolis triangle_globals (fun t => t) zero_draws) 10000
        (triangle_solver [true; true; true]) (exp1 100 (1 / 100) 10000)
    = Ok (uN, (strings, energies)).
Proof.
  apply (sim_run_exists _ (fun s => wf s /\ (1 <= num_vertices s)%nat)).
  - rewrite length_exp1. lia.
  - split; [now apply wf_triangle_solver | simpl; lia].
  - intros k s temp. apply metropolis_keeps_shape.
Qed.

Lemma sim_trace_witness :
  exists uN strings energies,
    sim (metropolis triangle_globals (fun t => t) zero_draws) 10000
        (triangle_solver [true; true; true]) (exp1 100 (1 / 100) 10000)
    = Ok (uN, (strings, energies)) /\
    (Z.to_nat 10000 + 1 <= length (exp1 100 (1 / 100) 10000))%nat /\
    length strings = (Z.to_nat (10000 / 100) + 1)%nat /\
    length energies = (Z.to_nat (10000 / 100) + 1)%nat /\
    (forall k, (100 * Z.of_nat k <= 10000)%Z ->
       exists s E,
         call (metropolis triangle_globals (fun t => t) zero_draws)
              (exp1 100 (1 / 100) 10000)
              (triangle_solver [true; true; true]) (100 * k) = Ok (s, E) /\
         nth_error strings k = Some (occupations s) /\
         nth_error energies k = Some E) /\
    (exists E,
       call (metropolis triangle_globals (fun t => t) zero_draws)
            (exp1 100 (1 / 100) 10000)
            (triangle_solver [true; true; true]) (Z.to_nat 10000)
       = Ok (uN, E)).
Proof.
  destruct notebook_run as (uN & strings & energies & Hrun).
  exists uN, strings, energies. split; [exact Hrun|].
  apply (sim_trace _ 10000 _ uN _ strings energies); [lia | exact Hrun].
Defined.

Lemma sim_returns_witness :
  exists uN strings energies,
    sim (metropolis triangle_globals (fun t => t) zero_draws) 10000
        (triangle_solver [true; true; true]) (exp1 100 (1 / 100) 10000)
    = Ok (uN, (strings, energies)) /\
    (wf uN /\ (1 <= num_vertices uN)%nat) /\
    Forall (fun st => exists s,
              (wf s /\ (1 <= num_vertices s)%nat) /\ st = occupations s)
           strings.
Proof.
  apply (sim_returns _ (fun s => wf s /\ (1 <= num_vertices s)%nat)).
  - rewrite length_exp1. lia.
  - split; [now apply wf_triangle_solver | simpl; lia].
  - intros k s temp. apply metropolis_keeps_shape.
Defined.

(** X11.  With a schedule [T] of fewer than [N + 1] entries, [sim(T)]
    raises [IndexError] as soon as the stepping method returns at the loop
    indices below [len(T)] (on every instance satisfying a property it
    keeps); what the stepping method would do at index [len(T)] or later
    plays no part, the read [T[t]] coming before the step. *)
Theorem sim_short_schedule
  (mc_step : nat -> UDMIS -> R -> result (UDMIS * R))
  (Inv : UDMIS -> Prop) (N : Z) (udmis : UDMIS) (T : list R) :
  (length T < Z.to_nat (N + 1))%nat -> Inv udmis ->
  (forall k s temp, (k < length T)%nat -> Inv s ->
     exists s' E, mc_step k s temp = Ok (s', E) /\ Inv s') ->
  sim mc_step N udmis T = Raise IndexError.
Proof.
  intros HT Hinv Hstep. unfold sim, range.
  change (Z.to_nat 0) with 0%nat.
  replace (Z.to_nat (N + 1 - 0))
    with (length T + S (Z.to_nat (N + 1) - length T - 1))%nat by lia.
  rewrite seq_app, for_append.
  destruct (for_seq_inv (fun _ st => Inv (fst st))
              (sim_body mc_step T) 0 (length T) (udmis, ([], [])))
    as ([u1 [strings energies]] & Hrun & _).
  - exact Hinv.
  - intros k [u1 [strings energies]] Hk Hi. simpl in Hi.
    assert (Hlt : (k < length T)%nat) by lia.
    unfold sim_body. rewrite (getitem_nat T k 0) by assumption. cbn [bind].
    destruct (Hstep k u1 (nth k T 0) Hlt Hi) as (u2 & E & Hm & Hi2).
    rewrite Hm. cbn [bind].
    destruct (k mod 100 =? 0)%nat; eexists; (split; [reflexivity|]);
      exact Hi2.
  - rewrite Hrun. cbn [bind]. simpl seq. simpl for_.
    unfold sim_body at 1. rewrite getitem_beyond by lia. reflexivity.
Qed.

Lemma sim_short_schedule_witness :
  sim (fun t s temp =>
         if (t <? Z.to_nat 10000)%nat
         then metropolis triangle_globals (fun t => t) zero_draws t s temp
         else Raise ValueError)
      10000 (triangle_solver [true; true; true]) (exp1 100 (1 / 100) 9999)
  = Raise IndexError.
Proof.
  apply (sim_short_schedule _ (fun s => wf s /\ (1 <= num_vertices s)%nat)).
  - rewrite length_exp1. lia.
  - split; [now apply wf_triangle_solver | simpl; lia].
  - intros k s temp Hk. rewrite length_exp1 in Hk.
    assert (E : (k <? Z.to_nat 10000)%nat = true) by (apply Nat.ltb_lt; lia).
    rewrite E. apply metropolis_keeps_shape.
Defined.

Lemma getitem_nth_error {A : Type} (l : list A) (k : nat) (x : A) :
  nth_error l k = Some x -> getitem l (Z.of_nat k) = Ok x.
Proof.
  intros H. unfold getitem. rewrite norm_index_nat.
  assert (Hk : (k < length l)%nat) by (apply nth_error_Some; congruence).
  apply Nat.ltb_lt in Hk. now rewrite Hk, H.
Qed.

(** X12.  The occupation vector the first notebook plots,
    [strings[int(N/100) - 1]], is not the last one recorded: for
    [N >= 100] it is the vector left by the call of [mc_step] at loop index
    [100 (N // 100 - 1)], one recording before the last; for
    [0 <= N < 100] the index is [-1] and selects the only recorded vector,
    the one left by the first call. *)
Theorem plotted_sample (mc_step : nat -> UDMIS -> R -> result (UDMIS * R))
  (N : Z) (udmis uN : UDMIS) (T : list R)
  (strings : list (list bool)) (energies : list R) :
  (0 <= N)%Z ->
  sim mc_step N udmis T = Ok (uN, (strings, energies)) ->
  exists s E,
    call mc_step T udmis
      (if (N <? 100)%Z then 0 else 100 * (Z.to_nat (N / 100) - 1)) = Ok (s, E) /\
    plotted strings N = Ok (occupations s).
Proof.
  intros HN Hrun.
  pose proof (sim_inv_end mc_step T udmis N _ HN Hrun) as Hinv.
  unfold sim_inv in Hinv.
  destruct Hinv as (_ & _ & _ & _ & Hcnt & Hsam).
  assert (Hc : length strings = (Z.to_nat (N / 100) + 1)%nat)
    by now apply div100_succ.
  unfold plotted. rewrite Z.quot_div_nonneg by lia.
  pose proof (Z.div_mod N 100 ltac:(lia)) as Hdm.
  pose proof (Z.mod_pos_bound N 100 ltac:(lia)) as Hm.
  destruct (Z.ltb_spec N 100) as [Hlt|Hge].
  - assert (Hq : (N / 100 = 0)%Z) by (apply Z.div_small; lia).
    destruct (Hsam 0%nat ltac:(lia)) as (s & E & Hcall & Hs & _).
    exists s, E. split; [exact Hcall|].
    rewrite Hq in *. simpl in Hc.
    replace (0 - 1)%Z with (Z.of_nat 0 - Z.of_nat (length strings))%Z
      by (rewrite Hc; reflexivity).
    rewrite getitem_wrap by lia. now apply getitem_nth_error.
  - assert (Hq : (1 <= N / 100)%Z) by (apply Z.div_le_lower_bound; lia).
    destruct (Hsam (Z.to_nat (N / 100) - 1)%nat ltac:(lia))
      as (s & E & Hcall & Hs & _).
    exists s, E. split; [exact Hcall|].
    replace (N / 100 - 1)%Z with (Z.of_nat (Z.to_nat (N / 100) - 1)) by lia.
    now apply getitem_nth_error.
Qed.

Lemma plotted_sample_witness :
  exists uN strings energies,
    sim (metropolis triangle_globals (fun t => t) zero_draws) 10000
        (triangle_solver [true; true; true]) (exp1 100 (1 / 100) 10000)
    = Ok (uN, (strings, energies)) /\
    exists s E,
      call (metropolis triangle_globals (fun t => t) zero_draws)
           (exp1 100 (1 / 100) 10000)
           (triangle_solver [true; true; true])
           (if (10000 <? 100)%Z then 0
            else 100 * (Z.to_nat (10000 / 100) - 1)) = Ok (s, E) /\
      plotted strings 10000 = Ok (occupations s).
Proof.
  destruct notebook_run as (uN & strings & energies & Hrun).
  exists uN, strings, energies. split; [exact Hrun|].
  apply (plotted_sample _ 10000 _ uN _ strings energies); [lia | exact Hrun].
Defined.

(** ** The temperature schedule *)

Lemma getitem_exp1 (T_i T_f : R) (N : Z) (t : nat) :
  (t <= Z.to_nat N)%nat -> (0 <= N)%Z ->
  getitem (exp1 T_i T_f N) (Z.of_nat t) =
  Ok (T_i * Rpower (T_f / T_i) (INR t / IZR N)).
Proof.
  intros Ht HN.
  rewrite (getitem_nat _ t 0) by (rewrite length_exp1; lia).
  f_equal. unfold exp1, range. change (Z.to_nat 0) with 0%nat.
  rewrite (nth_indep _ 0 ((fun k => T_i * Rpower (T_f / T_i) (INR k / IZR N)) 0%nat))
    by (rewrite length_map, length_seq; lia).
  rewrite (map_nth (fun k => T_i * Rpower (T_f / T_i) (INR k / IZR N))).
  rewrite seq_nth by lia. reflexivity.
Qed.

Lemma cooling_decreases (T_i b y y' : R) :
  0 < T_i -> 0 < b < 1 -> y < y' ->
  T_i * Rpower b y' < T_i * Rpower b y.
Proof.
  intros HT [Hb0 Hb1] Hy. apply Rmult_lt_compat_l; [assumption|].
  unfold Rpower. apply exp_increasing.
  assert (Hln : ln b < 0) by (rewrite <- ln_1; now apply ln_increasing).
  nra.
Qed.

(** X13.  The schedule [exp1 = T_i * ((T_f/T_i) ** (t/N))] of the first
    notebook, for [0 < T_f < T_i] and [N >= 1]: it has [N + 1] entries (so
    [sim] finds a temperature for each of its steps), starts at [T_i], ends
    at [T_f], decreases strictly, and so stays within [T_f .. T_i]; every
    temperature handed to [mc_step] is positive. *)
Theorem exp1_schedule (T_i T_f : R) (N : Z) :
  0 < T_f -> T_f < T_i -> (1 <= N)%Z ->
  length (exp1 T_i T_f N) = (Z.to_nat N + 1)%nat /\
  getitem (exp1 T_i T_f N) 0 = Ok T_i /\
  getitem (exp1 T_i T_f N) N = Ok T_f /\
  (forall t t' x x', (t < t')%nat ->
     getitem (exp1 T_i T_f N) (Z.of_nat t) = Ok x ->
     getitem (exp1 T_i T_f N) (Z.of_nat t') = Ok x' ->
     x' < x) /\
  (forall t x,
     getitem (exp1 T_i T_f N) (Z.of_nat t) = Ok x -> 0 < T_f <= x /\ x <= T_i).
Proof.
  intros Hf Hfi HN.
  assert (Hi : 0 < T_i) by lra.
  assert (Hb : 0 < T_f / T_i < 1).
  { split.
    - apply Rdiv_lt_0_compat; assumption.
    - apply (Rmult_lt_reg_r T_i); [assumption|].
      unfold Rdiv. rewrite Rmult_assoc, Rinv_l by lra. lra. }
  assert (HNR : 0 < IZR N) by (apply IZR_lt; lia).
  assert (Hval : forall t x,
            getitem (exp1 T_i T_f N) (Z.of_nat t) = Ok x ->
            (t <= Z.to_nat N)%nat /\
            x = T_i * Rpower (T_f / T_i) (INR t / IZR N)).
  { intros t x Hx. apply getitem_ok_lt in Hx as Hlt.
    rewrite length_exp1 in Hlt.
    assert (Ht : (t <= Z.to_nat N)%nat) by lia.
    rewrite getitem_exp1 in Hx by (try assumption; lia).
    split; [assumption | congruence]. }
  assert (H0 : getitem (exp1 T_i T_f N) 0 = Ok T_i).
  { change 0%Z with (Z.of_nat 0). rewrite getitem_exp1 by lia.
    f_equal. simpl INR. unfold Rdiv. rewrite Rmult_0_l.
    rewrite Rpower_O by apply Hb. ring. }
  assert (HlastN : getitem (exp1 T_i T_f N) N = Ok T_f).
  { replace N with (Z.of_nat (Z.to_nat N)) at 2 by lia.
    rewrite getitem_exp1 by lia. f_equal.
    rewrite INR_IZR_INZ, Z2Nat.id by lia.
    unfold Rdiv at 2. rewrite Rinv_r by lra.
    rewrite Rpower_1 by apply Hb. field. lra. }
  assert (Hdec : forall t t' x x', (t < t')%nat ->
            getitem (exp1 T_i T_f N) (Z.of_nat t) = Ok x ->
            getitem (exp1 T_i T_f N) (Z.of_nat t') = Ok x' ->
            x' < x).
  { intros t t' x x' Htt Hx Hx'.
    destruct (Hval t x Hx) as [_ ->]. destruct (Hval t' x' Hx') as [_ ->].
    apply cooling_decreases; try assumption.
    unfold Rdiv. apply Rmult_lt_compat_r.
    - now apply Rinv_0_lt_compat.
    - now apply lt_INR. }
  split; [rewrite length_exp1; lia|].
  split; [exact H0|]. split; [exact HlastN|]. split; [exact Hdec|].
  intros t x Hx. destruct (Hval t x Hx) as [Ht _].
  assert (Hlow : T_f <= x).
  { destruct (Nat.eq_dec t (Z.to_nat N)) as [->|Hne].
    - replace (Z.of_nat (Z.to_nat N)) with N in Hx by lia.
      rewrite HlastN in Hx. injection Hx as <-. lra.
    - left. apply (Hdec t (Z.to_nat N) x T_f); [lia | assumption |].
      now replace (Z.of_nat (Z.to_nat N)) with N by lia. }
  assert (Hhigh : x <= T_i).
  { destruct t as [|t'].
    - change (Z.of_nat 0) with 0%Z in Hx. rewrite H0 in Hx.
      injection Hx as <-. lra.
    - left. apply (Hdec 0%nat (S t') T_i x); [lia | exact H0 | assumption]. }
  split; [split; assumption | assumption].
Qed.

Lemma exp1_schedule_witness :
  length (exp1 100 (1 / 100) 10000) = (Z.to_nat 10000 + 1)%nat /\
  getitem (exp1 100 (1 / 100) 10000) 0 = Ok 100 /\
  getitem (exp1 100 (1 / 100) 10000) 10000 = Ok (1 / 100) /\
  (forall t t' x x', (t < t')%nat ->
     getitem (exp1 100 (1 / 100) 10000) (Z.of_nat t) = Ok x ->
     getitem (exp1 100 (1 / 100) 10000) (Z.of_nat t') = Ok x' ->
     x' < x) /\
  (forall t x,
     getitem (exp1 100 (1 / 100) 10000) (Z.of_nat t) = Ok x ->
     0 < 1 / 100 <= x /\ x <= 100).
Proof.
  apply (exp1_schedule 100 (1 / 100) 10000); [lra | lra | lia].
Defined.

(** * The read-out of the second notebook *)

(** ** The most frequent sample *)

Lemma max_from_spec {A : Type} (key : A -> nat) (l : list A) (best : A) :
  (max_from key best l = best \/ In (max_from key best l) l) /\
  (key best <= key (max_from key best l))%nat /\
  (forall x, In x l -> (key x <= key (max_from key best l))%nat).
Proof.
  revert best. induction l as [|y l IH]; intros best; simpl.
  - split; [now left|]. split; [lia | intros x []].
  - destruct (Nat.ltb_spec (key best) (key y)) as [Hlt|Hge].
    + destruct (IH y) as (Hin & Hy & Hall).
      split; [right; destruct Hin as [->|Hin]; auto|].
      split; [lia|].
      intros x [<-|Hx]; auto.
    + destruct (IH best) as (Hin & Hb & Hall).
      split; [destruct Hin as [Hin|Hin]; auto|].
      split; [lia|].
      intros x [<-|Hx]; [lia | auto].
Qed.

(** X14.  [sol = max(set(samples), key = samples.count)] is a most frequent
    sample whatever order the set hands out its elements in: it occurs in
    [samples], and no sample occurs more often; on an empty sample list
    [max] raises [ValueError]. *)
Theorem sol_most_frequent (elements samples : list str) :
  (forall x, In x elements <-> In x samples) ->
  (samples = [] -> sol elements samples = Raise ValueError) /\
  (samples <> [] ->
   exists s, sol elements samples = Ok s /\ In s samples /\
             forall x, (count samples x <= count samples s)%nat).
Proof.
  intros Hset. split.
  - intros ->. destruct elements as [|x l]; [reflexivity|].
    exfalso. apply (Hset x). now left.
  - intros Hne. destruct elements as [|e l].
    + destruct samples as [|x l]; [contradiction|].
      exfalso. apply (Hset x). now left.
    + unfold sol, max.
      destruct (max_from_spec (count samples) l e) as (Hin & Hbest & Hall).
      set (s := max_from (count samples) e l) in *.
      assert (Hs : In s (e :: l)) by (destruct Hin as [->|Hin]; simpl; auto).
      exists s. split; [reflexivity|]. split; [now apply Hset|].
      intros x. unfold count in *.
      destruct (in_dec str_dec x samples) as [Hx|Hx].
      * apply Hset in Hx. destruct Hx as [<-|Hx]; auto.
      * apply (count_occ_not_In str_dec) in Hx. rewrite Hx. lia.
Qed.

Lemma sol_most_frequent_witness :
  (forall x,
     In x [ [chr 49; chr 48]; [chr 48; chr 49] ] <->
     In x [ [chr 48; chr 49]; [chr 49; chr 48]; [chr 48; chr 49] ]) /\
  ([ [chr 48; chr 49]; [chr 49; chr 48]; [chr 48; chr 49] ] = [] ->
   sol [ [chr 49; chr 48]; [chr 48; chr 49] ]
       [ [chr 48; chr 49]; [chr 49; chr 48]; [chr 48; chr 49] ]
   = Raise ValueError) /\
  ([ [chr 48; chr 49]; [chr 49; chr 48]; [chr 48; chr 49] ] <> [] ->
   exists s,
     sol [ [chr 49; chr 48]; [chr 48; chr 49] ]
         [ [chr 48; chr 49]; [chr 49; chr 48]; [chr 48; chr 49] ] = Ok s /\
     In s [ [chr 48; chr 49]; [chr 49; chr 48]; [chr 48; chr 49] ] /\
     forall x,
       (count [ [chr 48; chr 49]; [chr 49; chr 48]; [chr 48; chr 49] ] x
        <= count [ [chr 48; chr 49]; [chr 49; chr 48]; [chr 48; chr 49] ] s)%nat).
Proof.
  assert (Hset : forall x,
     In x [ [chr 49; chr 48]; [chr 48; chr 49] ] <->
     In x [ [chr 48; chr 49]; [chr 49; chr 48]; [chr 48; chr 49] ]).
  { intros x. simpl. tauto. }
  split; [exact Hset|].
  exact (sol_most_frequent _ _ Hset).
Defined.

(** ** The colour of each vertex *)

Lemma ints_closed (s : str) :
  ints s =
  if forallb is_digit s
  then Ok (map (fun d => Z.of_nat (ord d - 48)) s)
  else Raise ValueError.
Proof.
  induction s as [|d s IH]; [reflexivity|]. simpl. unfold int.
  destruct (is_digit d); [|reflexivity]. cbn [bind andb].
  rewrite IH. now destruct (forallb is_digit s).
Qed.

Lemma forallb_rev {A : Type} (f : A -> bool) (l : list A) :
  forallb f (rev l) = forallb f l.
Proof.
  induction l as [|a l IH]; [reflexivity|]. simpl.
  rewrite forallb_app, IH. simpl. rewrite andb_true_r. apply andb_comm.
Qed.

Lemma firstn_succ {A : Type} (l : list A) (n : nat) (d : A) :
  (n < length l)%nat -> firstn (S n) l = firstn n l ++ [nth n l d].
Proof.
  revert n. induction l as [|a l IH]; intros n Hn; simpl in Hn; [lia|].
  destruct n as [|n]; [reflexivity|].
  rewrite !firstn_cons, (IH n) by lia. reflexivity.
Qed.

Lemma In_firstn {A : Type} (l : list A) (n : nat) (x : A) :
  In x (firstn n l) -> In x l.
Proof.
  revert n. induction l as [|a l IH]; intros [|n]; simpl; try tauto.
  intros [H|H]; [now left | right; eauto].
Qed.

Lemma color_loop (string : list Z) (n : nat) :
  (n <= length string)%nat ->
  for_ (seq 0 n) (color_map_body string) [] =
  Ok (map (fun x => if (x =? 0)%Z then black else salmon) (firstn n string)).
Proof.
  induction n as [|n IH]; intros Hn; [reflexivity|].
  rewrite seq_S, for_append, IH by lia. cbn [bind]. simpl for_.
  unfold color_map_body. rewrite (getitem_nat string n 0%Z) by lia.
  cbn [bind]. f_equal.
  rewrite (firstn_succ string n 0%Z) by lia.
  now rewrite map_app.
Qed.

Lemma color_loop_short (string : list Z) (n : nat) :
  (length string < n)%nat ->
  for_ (seq 0 n) (color_map_body string) [] = Raise IndexError.
Proof.
  intros Hn.
  replace n with (length string + S (n - length string - 1))%nat by lia.
  rewrite seq_app, for_append, color_loop by lia. cbn [bind].
  simpl seq. simpl for_. unfold color_map_body at 1.
  rewrite getitem_beyond by lia. reflexivity.
Qed.

Lemma colour_of_digit (d : Ascii.ascii) :
  is_digit d = true ->
  (if (Z.of_nat (ord d - 48) =? 0)%Z then black else salmon) = colour_of d.
Proof.
  unfold is_digit, colour_of. intros H. apply andb_true_iff in H as [H1 H2].
  apply Nat.leb_le in H1.
  destruct (Nat.eqb_spec (ord d) 48) as [->|Hne]; [reflexivity|].
  destruct (Z.eqb_spec (Z.of_nat (ord d - 48)) 0); [lia | reflexivity].
Qed.

Lemma color_map_after_find_edges (G : Globals) (sol0 : str) (udmis : UDMIS)
  (m : matrix) :
  find_edges G udmis = Ok m ->
  color_map G sol0 udmis =
  (if forallb is_digit sol0
   then if (num_vertices udmis <=? length sol0)%nat
        then Ok (map colour_of (firstn (num_vertices udmis) (rev sol0)))
        else Raise IndexError
   else Raise ValueError).
Proof.
  intros Hm. unfold color_map. rewrite Hm. cbn [bind].
  rewrite ints_closed, forallb_rev.
  destruct (forallb is_digit sol0) eqn:Hdig; [|reflexivity]. cbn [bind].
  unfold range. change (Z.to_nat 0) with 0%nat.
  replace (Z.to_nat (Z.of_nat (num_vertices udmis) - 0))
    with (num_vertices udmis) by lia.
  destruct (Nat.leb_spec (num_vertices udmis) (length sol0)) as [Hle|Hgt].
  - rewrite color_loop by (rewrite length_map, length_rev; exact Hle).
    f_equal. rewrite firstn_map, map_map.
    apply map_ext_in. intros d Hd. apply colour_of_digit.
    apply In_firstn, in_rev in Hd.
    revert Hd. apply (proj1 (forallb_forall is_digit sol0) Hdig).
  - apply color_loop_short. now rewrite length_map, length_rev.
Qed.

(** X15.  The colouring of the second notebook in closed form.  The cell
    first rebuilds the adjacency array: with two or more vertices and a
    module-level [graph] of fewer points than vertices this raises
    [IndexError], whatever [sol] is.  Otherwise a character of [sol] that is
    not a decimal digit gives [ValueError]; otherwise fewer characters than
    vertices give [IndexError]; otherwise vertex [k] is coloured by the
    character [k] places from the end of [sol] (black for ['0'], salmon for
    any other digit), and characters at the front of [sol] beyond
    [num_vertices] are ignored. *)
Theorem color_map_closed (G : Globals) (sol0 : str) (udmis : UDMIS) :
  color_map G sol0 udmis =
  (if ((num_vertices udmis <=? length (global_graph G))
       || (num_vertices udmis <=? 1))%nat
   then if forallb is_digit sol0
        then if (num_vertices udmis <=? length sol0)%nat
             then Ok (map colour_of (firstn (num_vertices udmis) (rev sol0)))
             else Raise IndexError
        else Raise ValueError
   else Raise IndexError) /\
  (forall k, (k < num_vertices udmis)%nat ->
     (num_vertices udmis <= length sol0)%nat ->
     nth_error (map colour_of (firstn (num_vertices udmis) (rev sol0))) k =
     Some (colour_of (nth (length sol0 - 1 - k) sol0 (chr 48)))).
Proof.
  split.
  - destruct (Nat.leb_spec (num_vertices udmis) (length (global_graph G)))
      as [Hle|Hgt]; [|destruct (Nat.leb_spec (num_vertices udmis) 1)
                        as [Hle1|Hgt1]]; cbn [orb].
    + destruct (find_edges_total G udmis (or_introl Hle)) as (m & Hm & _).
      exact (color_map_after_find_edges G sol0 udmis m Hm).
    + destruct (find_edges_total G udmis (or_intror Hle1)) as (m & Hm & _).
      exact (color_map_after_find_edges G sol0 udmis m Hm).
    + unfold color_map.
      rewrite (find_edges_short_graph G udmis) by lia. reflexivity.
  - intros k Hk Hn.
    rewrite nth_error_map, nth_error_firstn.
    apply Nat.ltb_lt in Hk as Hkb. rewrite Hkb.
    assert (Hkr : (k < length (rev sol0))%nat) by (rewrite length_rev; lia).
    rewrite (nth_error_nth' _ (chr 48) Hkr). simpl. do 2 f_equal.
    rewrite rev_nth by lia. f_equal. lia.
Qed.

Lemma find_edges_triangle_solver (occ : list bool) :
  find_edges triangle_globals (triangle_solver occ) = Ok complete3.
Proof.
  destruct triangle_within as (H01 & H02 & H12).
  apply (find_edges_triangle _ _ (0, 0) (1 / 2, 0) (0, 1 / 2));
    first [reflexivity | assumption].
Qed.

Example color_map_reads_backwards :
  color_map triangle_globals [chr 49; chr 49; chr 48]
            (triangle_solver [true; true; true])
  = Ok [black; salmon; salmon].
Proof.
  now rewrite (color_map_after_find_edges _ _ _ _
                 (find_edges_triangle_solver _)).
Qed.

Example color_map_not_a_digit :
  color_map triangle_globals [chr 49; chr 120; chr 48]
            (triangle_solver [true; true; true])
  = Raise ValueError.
Proof.
  now rewrite (color_map_after_find_edges _ _ _ _
                 (find_edges_triangle_solver _)).
Qed.

Example color_map_too_short :
  color_map triangle_globals [chr 49; chr 48]
            (triangle_solver [true; true; true])
  = Raise IndexError.
Proof.
  now rewrite (color_map_after_find_edges _ _ _ _
                 (find_edges_triangle_solver _)).
Qed.

(** With the module-level [graph] rebound to fewer points than the instance
    has vertices, the adjacency array fails first: the non-digit of [sol] is
    never reached. *)
Example color_map_short_graph :
  color_map {| global_u := 2; global_graph := close_pair |}
            [chr 49; chr 120; chr 48] (triangle_solver [true; true; true])
  = Raise IndexError.
Proof.
  unfold color_map.
  rewrite find_edges_short_graph by (simpl; lia). reflexivity.
Qed.
